(** * pinip: the terminal-screen model and the foreground scheduler

    A shallow embedding of [terminalscreen/screen.go] (the virtual screen
    that turns a child's terminal output into a replayable scrollback
    stream) and of the promotion loop of [main.go], followed by the
    properties of the specification that concern them.

    Conventions.
    - Go's [int] is a 64-bit two's complement integer: it is a [Z] and
      every addition, subtraction and negation goes through [GoInt.wrap].
    - A Go [string] and a [[]byte] are lists of bytes ([ascii]).
    - A run-time panic is a value of the [result] type; every method that
      indexes a slice or allocates can produce one.
    - [*Line] and [*Character] pointers are never shared between two slots
      of the screen, so a mutation through a pointer is a functional
      update of the slot it came from. *)

From Stdlib Require Import ZArith List String Ascii Lia Bool DecimalString.
From Stdlib Require Import Permutation.
Import ListNotations.
Open Scope Z_scope.

(** ** Go integers *)

Module GoInt.

Definition minInt : Z := -9223372036854775808.
Definition maxInt : Z := 9223372036854775807.

Definition inRange (z : Z) : Prop := minInt <= z <= maxInt.

(** Two's complement wrap-around of a mathematical result. *)
Definition wrap (z : Z) : Z :=
  (z + 9223372036854775808) mod 18446744073709551616 - 9223372036854775808.

Definition add (a b : Z) : Z := wrap (a + b).
Definition sub (a b : Z) : Z := wrap (a - b).
Definition neg (a : Z) : Z := wrap (- a).

End GoInt.

(** ** Panics *)

Inductive panic : Type :=
| IndexOutOfRange          (* slice index out of range *)
| LenOutOfRange            (* a slice cannot hold more than maxInt cells *)
| EndCalledTwice           (* log.Panicln("Screen.End() called twice") *)
| Fatal.                   (* log.Fatal: the process exits *)

Inductive result (A : Type) : Type :=
| Ok (a : A)
| Panic (p : panic).

Arguments Ok {A} a.
Arguments Panic {A} p.

Definition bind {A B : Type} (m : result A) (k : A -> result B) : result B :=
  match m with
  | Ok a => k a
  | Panic p => Panic p
  end.

Notation "x <- m ;; k" := (bind m (fun x => k))
  (at level 61, m at next level, right associativity).

Definition rmap {A B : Type} (f : A -> B) (m : result A) : result B :=
  bind m (fun a => Ok (f a)).

(** [n] calls of a fallible method, one after the other. *)
Fixpoint repeatM {A : Type} (n : nat) (f : A -> result A) (a : A) : result A :=
  match n with
  | O => Ok a
  | S n' => a' <- f a ;; repeatM n' f a'
  end.

(** Go's builtin [len] on a slice. *)
Definition len {A : Type} (l : list A) : Z := Z.of_nat (Datatypes.length l).

(** ** Bytes and strings *)

Definition bytes : Type := list ascii.

Definition str (s : string) : bytes := list_ascii_of_string s.

Definition byteOfZ (z : Z) : ascii := ascii_of_N (Z.to_N z).

Definition ESC : bytes := ["027"%char].
Definition LF : bytes := ["010"%char].

(** [strconv.Itoa]. *)
Definition Itoa (z : Z) : bytes := str (NilZero.string_of_int (Z.to_int z)).

(** [string(r)] for a rune [r]: its UTF-8 encoding, and the encoding of
    U+FFFD for a value that is not a Unicode scalar. *)
Definition runeToString (r : Z) : bytes :=
  if (r <? 0) || (1114111 <? r) || ((55296 <=? r) && (r <=? 57343)) then
    [byteOfZ 239; byteOfZ 191; byteOfZ 189]
  else if r <=? 127 then
    [byteOfZ r]
  else if r <=? 2047 then
    [byteOfZ (Z.lor 192 (Z.shiftr r 6));
     byteOfZ (Z.lor 128 (Z.land r 63))]
  else if r <=? 65535 then
    [byteOfZ (Z.lor 224 (Z.shiftr r 12));
     byteOfZ (Z.lor 128 (Z.land (Z.shiftr r 6) 63));
     byteOfZ (Z.lor 128 (Z.land r 63))]
  else
    [byteOfZ (Z.lor 240 (Z.shiftr r 18));
     byteOfZ (Z.lor 128 (Z.land (Z.shiftr r 12) 63));
     byteOfZ (Z.lor 128 (Z.land (Z.shiftr r 6) 63));
     byteOfZ (Z.lor 128 (Z.land r 63))].

(** ** SGR attributes *)

(** Modelled from the spec: the type [SelectGraphicRenditionAttribute] and
    its methods [equals], [isUnsetAll], [toCSI] and
    [addToSGRAttributeList] are not in the source files at hand.  Section 3
    of the specification gives an attribute as a primitive numeric
    parameter or a composite 256-colour or 24-bit colour directive, and
    section 6 gives the categories. *)
Inductive SelectGraphicRenditionAttribute : Type :=
| SGRPrimitive (param : Z)
| SGRColor256 (target : Z) (index : Z)          (* 38;5;n and 48;5;n *)
| SGRColorRGB (target : Z) (r g b : Z).         (* 38;2;r;g;b and 48;2;r;g;b *)

Definition SGRList : Type := list SelectGraphicRenditionAttribute.

Inductive SGRCategory : Type :=
| Foreground | Background | Intensity | Italic | Underline | Blink
| Inverse | Strike | Uncategorised.

Definition inRangeb (lo hi z : Z) : bool := (lo <=? z) && (z <=? hi).

Definition targetCategory (target : Z) : SGRCategory :=
  if target =? 38 then Foreground
  else if target =? 48 then Background
  else Uncategorised.

Definition category (a : SelectGraphicRenditionAttribute) : SGRCategory :=
  match a with
  | SGRPrimitive n =>
      if inRangeb 30 37 n || inRangeb 90 97 n then Foreground
      else if inRangeb 40 47 n || inRangeb 100 107 n then Background
      else if (n =? 1) || (n =? 2) || (n =? 22) then Intensity
      else if (n =? 3) || (n =? 23) then Italic
      else if (n =? 4) || (n =? 21) || (n =? 24) then Underline
      else if (n =? 5) || (n =? 25) then Blink
      else if (n =? 7) || (n =? 27) then Inverse
      else if (n =? 9) || (n =? 29) then Strike
      else Uncategorised
  | SGRColor256 t _ => targetCategory t
  | SGRColorRGB t _ _ _ => targetCategory t
  end.

Definition categoryEqb (c d : SGRCategory) : bool :=
  match c, d with
  | Foreground, Foreground | Background, Background
  | Intensity, Intensity | Italic, Italic | Underline, Underline
  | Blink, Blink | Inverse, Inverse | Strike, Strike => true
  | _, _ => false
  end.

Module SGR.

(** Structural equality of two attributes. *)
Definition equals (a b : SelectGraphicRenditionAttribute) : bool :=
  match a, b with
  | SGRPrimitive n, SGRPrimitive m => n =? m
  | SGRColor256 t n, SGRColor256 u m => (t =? u) && (n =? m)
  | SGRColorRGB t r g b, SGRColorRGB u r' g' b' =>
      (t =? u) && (r =? r') && (g =? g') && (b =? b')
  | _, _ => false
  end.

(** A bare reset. *)
Definition isUnsetAll (a : SelectGraphicRenditionAttribute) : bool :=
  match a with
  | SGRPrimitive n => n =? 0
  | _ => false
  end.

(** The canonical byte form [ESC [ params m]. *)
Definition toCSI (a : SelectGraphicRenditionAttribute) : bytes :=
  match a with
  | SGRPrimitive n => ESC ++ str "[" ++ Itoa n ++ str "m"
  | SGRColor256 t n =>
      ESC ++ str "[" ++ Itoa t ++ str ";5;" ++ Itoa n ++ str "m"
  | SGRColorRGB t r g b =>
      ESC ++ str "[" ++ Itoa t ++ str ";2;" ++ Itoa r ++ str ";"
          ++ Itoa g ++ str ";" ++ Itoa b ++ str "m"
  end.

(** Two attributes evict one another when they are of one category, or
    are the same attribute. *)
Definition evicts (a b : SelectGraphicRenditionAttribute) : bool :=
  categoryEqb (category a) (category b) || equals a b.

(** Insert into a list, replacing any prior attribute of the category. *)
Definition addToSGRAttributeList
    (a : SelectGraphicRenditionAttribute) (l : SGRList) : SGRList :=
  filter (fun b => negb (evicts a b)) l ++ [a].

End SGR.

Module SGRs.

(** Modelled from the spec: [SGRList.equals] is not in the source files
    at hand; "equality is positional". *)
Fixpoint equals (l m : SGRList) : bool :=
  match l, m with
  | [], [] => true
  | a :: l', b :: m' => SGR.equals a b && equals l' m'
  | _, _ => false
  end.

End SGRs.

(** ** Characters and lines *)

(** Modelled from the spec: the struct [Character] is used by screen.go
    through its fields [rune], [sgr] and [extraEscapeSequences], and through
    [clearSGR] and [addSGR], which are not in the source files at hand. *)
Record Character : Type := mkCharacter {
  rune : Z;
  sgr : SGRList;
  extraEscapeSequences : bytes
}.

(** The zero value [Character{}] of the struct. *)
Definition zeroCharacter : Character := mkCharacter 0 [] [].

(** Modelled from the spec: "Default cell: space, empty SGR list, empty
    auxiliary string." *)
Definition defaultCharacter : Character := mkCharacter 32 [] [].

Definition isDefaultCharacter (c : Character) : bool :=
  (rune c =? 32)
  && match sgr c with [] => true | _ => false end
  && match extraEscapeSequences c with [] => true | _ => false end.

Definition setRune (r : Z) (c : Character) : Character :=
  mkCharacter r (sgr c) (extraEscapeSequences c).

Definition clearSGR (c : Character) : Character :=
  mkCharacter (rune c) [] (extraEscapeSequences c).

Definition addSGR (a : SelectGraphicRenditionAttribute) (c : Character)
    : Character :=
  mkCharacter (rune c) (SGR.addToSGRAttributeList a (sgr c))
              (extraEscapeSequences c).

Definition appendExtraEscapeSequences (seq : bytes) (c : Character)
    : Character :=
  mkCharacter (rune c) (sgr c) (extraEscapeSequences c ++ seq).

Record Line : Type := mkLine {
  characters : list Character
}.

Definition NewLine : Line := mkLine [].

(** The list [l] with [f] applied to its cell of index [n]. *)
Fixpoint updateNth {A : Type} (n : nat) (f : A -> A) (l : list A) : list A :=
  match l, n with
  | [], _ => []
  | a :: l', O => f a :: l'
  | a :: l', S n' => a :: updateNth n' f l'
  end.

(** The cells of a line, extended with default cells up to [x] inclusive. *)
Definition extendTo (x : Z) (cs : list Character) : list Character :=
  cs ++ repeat defaultCharacter (Z.to_nat (x + 1) - Datatypes.length cs).

(** Modelled from the spec: [Line.characterAt] is not in the source files
    at hand.  "Reading or writing at position x >= current length extends
    the line with default cells up to x inclusive."  The method returns a
    pointer to the cell; [f] is what the caller does to the cell through
    that pointer.  A negative index panics, and so does an index for which
    the line would need more than [maxInt] cells, the largest length a Go
    slice can have. *)
Definition characterAt (x : Z) (f : Character -> Character) (l : Line)
    : result Line :=
  if x <? 0 then Panic IndexOutOfRange
  else if GoInt.maxInt <=? x then Panic LenOutOfRange
  else Ok (mkLine (updateNth (Z.to_nat x) f (extendTo x (characters l)))).

(** The cells of a line without its trailing default cells. *)
Definition withoutTrailingDefault (cs : list Character) : list Character :=
  fold_right
    (fun c acc =>
       match acc with
       | [] => if isDefaultCharacter c then [] else [c]
       | _ :: _ => c :: acc
       end)
    [] cs.

(** Modelled from the spec: [lengthWithoutTrailingSpacesAndEmptyRunes] is
    not in the source files at hand; the specification calls it
    length_without_trailing_default_cells, "a default cell is a space with
    no SGRs and no auxiliary". *)
Definition lengthWithoutTrailingSpacesAndEmptyRunes (l : Line) : Z :=
  len (withoutTrailingDefault (characters l)).

(** ** The screen *)

(** The struct [Screen].  Its field [parser] is left out: the parser sits
    in front of the screen and calls the methods below, none of which reads
    or writes it.  [currentSGRs] is a slice that the code compares with
    [nil]: [None] is the nil slice. *)
Record Screen : Type := mkScreen {
  lines : list Line;
  desiredWidth : Z;
  maxHeight : Z;
  positionX : Z;
  positionY : Z;
  Ended : bool;
  QueuedScrollbackOutput : bytes;
  currentSGRs : option SGRList
}.

Definition setLines (ls : list Line) (s : Screen) : Screen :=
  mkScreen ls (desiredWidth s) (maxHeight s) (positionX s) (positionY s)
           (Ended s) (QueuedScrollbackOutput s) (currentSGRs s).

Definition setPositionX (x : Z) (s : Screen) : Screen :=
  mkScreen (lines s) (desiredWidth s) (maxHeight s) x (positionY s)
           (Ended s) (QueuedScrollbackOutput s) (currentSGRs s).

Definition setPositionY (y : Z) (s : Screen) : Screen :=
  mkScreen (lines s) (desiredWidth s) (maxHeight s) (positionX s) y
           (Ended s) (QueuedScrollbackOutput s) (currentSGRs s).

Definition setEnded (e : bool) (s : Screen) : Screen :=
  mkScreen (lines s) (desiredWidth s) (maxHeight s) (positionX s)
           (positionY s) e (QueuedScrollbackOutput s) (currentSGRs s).

Definition setQueuedScrollbackOutput (q : bytes) (s : Screen) : Screen :=
  mkScreen (lines s) (desiredWidth s) (maxHeight s) (positionX s)
           (positionY s) (Ended s) q (currentSGRs s).

Definition setCurrentSGRs (l : option SGRList) (s : Screen) : Screen :=
  mkScreen (lines s) (desiredWidth s) (maxHeight s) (positionX s)
           (positionY s) (Ended s) (QueuedScrollbackOutput s) l.

Definition NewScreen (width height : Z) : Screen :=
  mkScreen [NewLine]
           (if width <=? 0 then 1 else width)
           (if height <=? 0 then 1 else height)
           0 0 false [] None.

Definition Resize (width height : Z) (s : Screen) : Screen := s.

(** [s.lines[i]]: a panic when [i] is not an index of the slice. *)
Definition lineAt (i : Z) (s : Screen) : result Line :=
  if i <? 0 then Panic IndexOutOfRange
  else match nth_error (lines s) (Z.to_nat i) with
       | Some l => Ok l
       | None => Panic IndexOutOfRange
       end.

Definition currentLine (s : Screen) : result Line := lineAt (positionY s) s.

Definition currentScreenHeight (s : Screen) : Z := len (lines s).

Definition appendToScrollback (b : bytes) (s : Screen) : Screen :=
  setQueuedScrollbackOutput (QueuedScrollbackOutput s ++ b) s.

(** The loop of [sendLineToScrollbackBuffer] over the cells of a line:
    [previous] is [previousCharacter.sgr], and the boolean of the state is
    [didSetSGR]. *)
Fixpoint sendCharacters (cs : list Character) (previous : SGRList)
    (st : Screen * bool) : Screen * bool :=
  match cs with
  | [] => st
  | character :: rest =>
      let '(s, didSetSGR) := st in
      let s1 := appendToScrollback (extraEscapeSequences character) s in
      let st2 :=
        if negb (SGRs.equals (sgr character) previous) then
          let s2 := appendToScrollback (ESC ++ str "[0m") s1 in
          (fold_left (fun acc a => appendToScrollback (SGR.toCSI a) acc)
                     (sgr character) s2,
           true)
        else (s1, didSetSGR) in
      let s3 := appendToScrollback (runeToString (rune character)) (fst st2) in
      sendCharacters rest (sgr character) (s3, snd st2)
  end.

Definition sendLineToScrollbackBuffer (line : Line) (s : Screen) : Screen :=
  let s1 :=
    if 0 <? len (QueuedScrollbackOutput s) then appendToScrollback LF s
    else s in
  let '(s2, didSetSGR) :=
    sendCharacters (characters line) (sgr zeroCharacter) (s1, false) in
  if didSetSGR then appendToScrollback (ESC ++ str "[0m") s2 else s2.

(** The two cursor movements at the end of [End]: [positive] and [negative]
    are the final bytes of the two control sequences. *)
Definition appendMove (by_ : Z) (positive negative : string) (s : Screen)
    : Screen :=
  if 0 <? by_ then
    appendToScrollback (ESC ++ str "[" ++ Itoa by_ ++ str positive) s
  else if by_ <? 0 then
    appendToScrollback (ESC ++ str "[" ++ Itoa (GoInt.neg by_) ++ str negative) s
  else s.

Definition End (s : Screen) : result Screen :=
  if Ended s then Panic EndCalledTwice
  else
    let s1 := setEnded true s in
    let s2 := fold_left (fun acc line => sendLineToScrollbackBuffer line acc)
                        (lines s1) s1 in
    line <- currentLine s2 ;;
    let moveRightBy :=
      GoInt.sub (lengthWithoutTrailingSpacesAndEmptyRunes line) (positionX s2) in
    let s3 := appendMove moveRightBy "C" "D" s2 in
    let moveDownBy :=
      GoInt.sub (GoInt.sub (currentScreenHeight s3) (positionY s3)) 1 in
    let s4 := appendMove moveDownBy "B" "A" s3 in
    Ok (setLines [] s4).

Definition nextLine (s : Screen) : result Screen :=
  let s1 :=
    if positionY s <? GoInt.sub (currentScreenHeight s) 1 then
      setPositionY (GoInt.add (positionY s) 1) s
    else
      setLines (lines s ++ [NewLine]) s in
  if maxHeight s1 <? currentScreenHeight s1 then
    match lines s1 with
    | [] => Panic IndexOutOfRange
    | first :: rest => Ok (setLines rest (sendLineToScrollbackBuffer first s1))
    end
  else Ok s1.

Definition prevLine (s : Screen) : Screen :=
  if positionY s <=? 0 then s
  else setPositionY (GoInt.sub (positionY s) 1) s.

Definition nextCharacter (s : Screen) : Screen :=
  setPositionX (GoInt.add (positionX s) 1) s.

Definition prevCharacter (s : Screen) : Screen :=
  let s1 := setPositionX (GoInt.sub (positionX s) 1) s in
  if positionX s1 <? 0 then setPositionX 0 s1 else s1.

(** [s.currentLine().characterAt(s.positionX)], with [f] applied to the cell
    through the pointer that comes back. *)
Definition withCurrentCharacter (f : Character -> Character) (s : Screen)
    : result Screen :=
  line <- currentLine s ;;
  line' <- characterAt (positionX s) f line ;;
  Ok (setLines (updateNth (Z.to_nat (positionY s)) (fun _ => line') (lines s)) s).

(** What [setCurrentCharacterTo] does to the cell. *)
Definition writeCharacter (r : Z) (current : option SGRList) (c : Character)
    : Character :=
  let c1 := setRune r c in
  match current with
  | None => clearSGR c1
  | Some l => fold_left (fun acc a => addSGR a acc) l c1
  end.

Definition setCurrentCharacterTo (r : Z) (s : Screen) : result Screen :=
  withCurrentCharacter (writeCharacter r (currentSGRs s)) s.

Definition outNormalCharacter (b : Z) (s : Screen) : result Screen :=
  s1 <- setCurrentCharacterTo b s ;;
  Ok (nextCharacter s1).

Definition outRelativeMoveCursorVertical (howMany : Z) (s : Screen)
    : result Screen :=
  s1 <- repeatM (Z.to_nat howMany) nextLine s ;;
  repeatM (Z.to_nat (- howMany)) (fun s' => Ok (prevLine s')) s1.

Definition outRelativeMoveCursorHorizontal (howMany : Z) (s : Screen) : Screen :=
  let s1 := setPositionX (GoInt.add (positionX s) howMany) s in
  if positionX s1 <? 0 then setPositionX 0 s1 else s1.

Definition outAbsoluteMoveCursorVertical (targetY : Z) (s : Screen)
    : result Screen :=
  let moveDownBy := GoInt.sub targetY (positionY s) in
  outRelativeMoveCursorVertical moveDownBy s.

Definition outAbsoluteMoveCursorHorizontal (targetX : Z) (s : Screen) : Screen :=
  let s1 := setPositionX targetX s in
  if positionX s1 <? 0 then setPositionX 0 s1 else s1.

(** The loop of [outDeleteLeft], with [n] iterations left. *)
Fixpoint deleteLeftLoop (n : nat) (s : Screen) : result Screen :=
  match n with
  | O => Ok s
  | S n' =>
      s2 <- setCurrentCharacterTo 32 (prevCharacter s) ;;
      if positionX s2 =? 0 then Ok s2 else deleteLeftLoop n' s2
  end.

Definition outDeleteLeft (howMany : Z) (s : Screen) : result Screen :=
  deleteLeftLoop (Z.to_nat howMany) s.

Definition outUnhandledEscapeSequence (seq : bytes) (s : Screen)
    : result Screen :=
  withCurrentCharacter (appendExtraEscapeSequences seq) s.

Definition outSelectGraphicRenditionAttribute
    (a : SelectGraphicRenditionAttribute) (s : Screen) : Screen :=
  if SGR.isUnsetAll a then setCurrentSGRs (Some []) s
  else
    setCurrentSGRs
      (Some (SGR.addToSGRAttributeList a
               (match currentSGRs s with Some l => l | None => [] end)))
      s.

(** ** Sequences of screen operations *)

(** The calls that the escape-sequence parser makes on the screen. *)
Inductive ScreenOp : Type :=
| OpNormalCharacter (r : Z)
| OpNextLine
| OpPrevLine
| OpPrevCharacter
| OpRelativeMoveCursorVertical (howMany : Z)
| OpRelativeMoveCursorHorizontal (howMany : Z)
| OpAbsoluteMoveCursorVertical (targetY : Z)
| OpAbsoluteMoveCursorHorizontal (targetX : Z)
| OpDeleteLeft (howMany : Z)
| OpUnhandledEscapeSequence (seq : bytes)
| OpSelectGraphicRenditionAttribute (a : SelectGraphicRenditionAttribute).

Definition applyOp (op : ScreenOp) (s : Screen) : result Screen :=
  match op with
  | OpNormalCharacter r => outNormalCharacter r s
  | OpNextLine => nextLine s
  | OpPrevLine => Ok (prevLine s)
  | OpPrevCharacter => Ok (prevCharacter s)
  | OpRelativeMoveCursorVertical n => outRelativeMoveCursorVertical n s
  | OpRelativeMoveCursorHorizontal n => Ok (outRelativeMoveCursorHorizontal n s)
  | OpAbsoluteMoveCursorVertical y => outAbsoluteMoveCursorVertical y s
  | OpAbsoluteMoveCursorHorizontal x => Ok (outAbsoluteMoveCursorHorizontal x s)
  | OpDeleteLeft n => outDeleteLeft n s
  | OpUnhandledEscapeSequence seq => outUnhandledEscapeSequence seq s
  | OpSelectGraphicRenditionAttribute a =>
      Ok (outSelectGraphicRenditionAttribute a s)
  end.

Fixpoint runOps (ops : list ScreenOp) (s : Screen) : result Screen :=
  match ops with
  | [] => Ok s
  | op :: rest => s' <- applyOp op s ;; runOps rest s'
  end.

(** Modelled from the spec: the escape-sequence parser behind
    [Screen.Advance] is not in the source files at hand.  Section 4.1: a
    printable rune is decoded and emitted as out_normal_character(rune),
    the byte 0x0A as next_line().  [AdvanceRunes rs] is [Advance] on the
    byte stream that encodes the runes [rs], the rune 10 being the line
    feed. *)
Definition opOfRune (r : Z) : ScreenOp :=
  if r =? 10 then OpNextLine else OpNormalCharacter r.

Definition AdvanceRunes (rs : list Z) (s : Screen) : result Screen :=
  runOps (map opOfRune rs) s.

(** The byte stream of a sequence of runes. *)
Definition encodeRunes (rs : list Z) : bytes := List.concat (map runeToString rs).

(** A printable rune: a Unicode scalar outside the C0 and C1 controls. *)
Definition printableRune (r : Z) : Prop :=
  (32 <= r <= 126) \/ (160 <= r <= 55295) \/ (57344 <= r <= 1114111).

(** The invariants of section 3 of the specification. *)
Record ScreenInvariant (s : Screen) : Prop := mkScreenInvariant {
  inv_height_lower : 1 <= len (lines s);
  inv_height_upper : len (lines s) <= maxHeight s;
  inv_cursor_y_lower : 0 <= positionY s;
  inv_cursor_y_upper : positionY s < len (lines s);
  inv_cursor_x : 0 <= positionX s
}.

(** ** The bytes of a line, in the words of the specification *)

Definition resetSGR : bytes := ESC ++ str "[0m".

(** What one cell adds to the scrollback, [previous] being the SGR list of
    the cell before it: the auxiliary bytes, then, when the SGR list
    differs, a reset and the cell's SGRs, then the rune. *)
Definition emitCell (previous : SGRList) (c : Character) : bytes :=
  extraEscapeSequences c
  ++ (if SGRs.equals (sgr c) previous then []
      else resetSGR ++ List.concat (map SGR.toCSI (sgr c)))
  ++ runeToString (rune c).

Fixpoint emitCells (previous : SGRList) (cs : list Character) : bytes :=
  match cs with
  | [] => []
  | c :: rest => emitCell previous c ++ emitCells (sgr c) rest
  end.

(** Whether some cell of the line set its SGRs during the emission. *)
Fixpoint anySGRSet (previous : SGRList) (cs : list Character) : bool :=
  match cs with
  | [] => false
  | c :: rest => negb (SGRs.equals (sgr c) previous) || anySGRSet (sgr c) rest
  end.

(** The queue after the emission of a line, from the queue before it. *)
Definition emitLine (queue : bytes) (line : Line) : bytes :=
  queue
  ++ (if 0 <? len queue then LF else [])
  ++ emitCells [] (characters line)
  ++ (if anySGRSet [] (characters line) then resetSGR else []).

(** The bytes of a cursor movement by [by_] cells. *)
Definition moveBytes (by_ : Z) (positive negative : string) : bytes :=
  if 0 <? by_ then ESC ++ str "[" ++ Itoa by_ ++ str positive
  else if by_ <? 0 then ESC ++ str "[" ++ Itoa (GoInt.neg by_) ++ str negative
  else [].

(** The queue that [End] leaves, [line] being the line of the cursor. *)
Definition endScrollback (s : Screen) (line : Line) : bytes :=
  fold_left emitLine (lines s) (QueuedScrollbackOutput s)
  ++ moveBytes
       (GoInt.sub (lengthWithoutTrailingSpacesAndEmptyRunes line) (positionX s))
       "C" "D"
  ++ moveBytes
       (GoInt.sub (GoInt.sub (currentScreenHeight s) (positionY s)) 1)
       "B" "A".

(** The invariants, with the bound that the type [int] puts on
    [maxHeight]. *)
Definition ScreenOK (s : Screen) : Prop :=
  ScreenInvariant s /\ maxHeight s <= GoInt.maxInt.

(** A result that keeps the invariants: a screen that satisfies them, or
    the panic of a line that a slice cannot hold. *)
Definition Safe (r : result Screen) : Prop :=
  match r with
  | Ok s => ScreenOK s
  | Panic p => p = LenOutOfRange
  end.

(** The fields that are set when the screen is made and when it ends. *)
Definition fixedFields (s : Screen) : Z * Z * bool :=
  (desiredWidth s, maxHeight s, Ended s).

(** ** next_line in the words of the specification *)

(** Section 4.2: "If cursor_y < len(lines) - 1, simply increment cursor_y.
    Else append a new empty Line.  If len(lines) > max_height, emit lines[0]
    to scrollback and remove it; cursor_y decrements by one so it still
    points at the same logical line." *)
Definition specNextLine (s : Screen) : Screen :=
  let s1 :=
    if positionY s <? len (lines s) - 1 then setPositionY (positionY s + 1) s
    else setLines (lines s ++ [NewLine]) s in
  if maxHeight s1 <? len (lines s1) then
    match lines s1 with
    | [] => s1
    | first :: rest =>
        setPositionY (positionY s1 - 1)
          (setLines rest (sendLineToScrollbackBuffer first s1))
    end
  else s1.

(** ** Cells *)

(** The cell that a rune written with no current SGR leaves. *)
Definition plainCell (r : Z) : Character := mkCharacter r [] [].

(** The cell of line [y] and column [x], when the screen has one. *)
Definition cellAt (y x : Z) (s : Screen) : option Character :=
  if (y <? 0) || (x <? 0) then None
  else match nth_error (lines s) (Z.to_nat y) with
       | Some l => nth_error (characters l) (Z.to_nat x)
       | None => None
       end.


(** ** The foreground scheduler (main.go) *)

Module Scheduler.

(** What [proc.wait()] returns for a child: [nil], an [*exec.ExitError]
    with its exit code, or another error. *)
Inductive waitOutcome : Type :=
| WaitNil
| WaitExitError (code : Z)
| WaitOtherError.

(** [toForeground]: the drain of the captured output writes to the terminal
    and leaves the exit code alone; the exit code is that of [wait]. *)
Definition toForeground (proc : waitOutcome) : result Z :=
  match proc with
  | WaitExitError code => Ok code
  | WaitOtherError => Panic Fatal
  | WaitNil => Ok 0
  end.

(** The loop [for processResult := range processes] of [start], over the
    children in the order of the channel, [exitCode] being the named
    result. *)
Fixpoint promote (keepGoingOnError : bool) (processes : list waitOutcome)
    (exitCode : Z) : result Z :=
  match processes with
  | [] => Ok exitCode
  | processResult :: rest =>
      code <- toForeground processResult ;;
      let exitCode' := Z.max exitCode code in
      if negb keepGoingOnError && negb (exitCode' =? 0) then Ok exitCode'
      else promote keepGoingOnError rest exitCode'
  end.

Definition start (keepGoingOnError : bool) (processes : list waitOutcome)
    : result Z :=
  promote keepGoingOnError processes 0.

End Scheduler.

(** "The maximum of the children's exit statuses", in the words of the
    specification: the largest status of the list, when there is one. *)
Definition maximumStatus (codes : list Z) : option Z :=
  match codes with
  | [] => None
  | c :: rest => Some (fold_left Z.max rest c)
  end.

(** ** Streams of runes and unhandled sequences *)

(** What the parser hands to the screen for a stream of text in which
    sequences that the screen does not interpret are interleaved. *)
Inductive StreamItem : Type :=
| ItemRune (r : Z)
| ItemEscape (seq : bytes).

Definition opOfItem (i : StreamItem) : ScreenOp :=
  match i with
  | ItemRune r => OpNormalCharacter r
  | ItemEscape seq => OpUnhandledEscapeSequence seq
  end.

Definition encodeItem (i : StreamItem) : bytes :=
  match i with
  | ItemRune r => runeToString r
  | ItemEscape seq => seq
  end.

Definition encodeItems (items : list StreamItem) : bytes :=
  List.concat (map encodeItem items).

(** The stream is empty or ends with a rune that is not a space. *)
Fixpoint endsWithVisibleRune (items : list StreamItem) : Prop :=
  match items with
  | [] => True
  | i :: rest =>
      match rest with
      | [] => match i with ItemRune r => r <> 32 | ItemEscape _ => False end
      | _ :: _ => endsWithVisibleRune rest
      end
  end.

(** The operations for lines of text separated by a carriage return and a
    line feed. *)
Fixpoint linesOps (ls : list (list Z)) : list ScreenOp :=
  match ls with
  | [] => []
  | l :: rest =>
      map OpNormalCharacter l
      ++ match rest with
         | [] => []
         | _ :: _ => [OpAbsoluteMoveCursorHorizontal 0; OpNextLine]
                     ++ linesOps rest
         end
  end.

(** Lines of text joined by line feeds. *)
Definition joinLines (ls : list (list Z)) : bytes :=
  match ls with
  | [] => []
  | l :: rest =>
      encodeRunes l ++ List.concat (map (fun l' => LF ++ encodeRunes l') rest)
  end.

(** The operations that can scroll: a line feed and the vertical moves. *)
Definition canScroll (op : ScreenOp) : bool :=
  match op with
  | OpNextLine
  | OpRelativeMoveCursorVertical _
  | OpAbsoluteMoveCursorVertical _ => true
  | _ => false
  end.

(** The cell of line [y] and column [x], a default cell when the line is
    shorter. *)
Definition cellOrDefault (y x : Z) (s : Screen) : Character :=
  match cellAt y x s with
  | Some c => c
  | None => defaultCharacter
  end.

Definition hasSGR (c : Character) : bool :=
  match sgr c with [] => false | _ :: _ => true end.

(** The bytes of a cell that has no SGR attribute. *)
Definition plainBytes (c : Character) : bytes :=
  extraEscapeSequences c ++ runeToString (rune c).

(** The queue of [s'] is the queue of [s] with bytes added at its end. *)
Definition extendsQueue (s s' : Screen) : Prop :=
  exists suffix,
    QueuedScrollbackOutput s' = QueuedScrollbackOutput s ++ suffix.

(** The unhandled sequences that wait for the rune of the cell under the
    cursor, and the cell that holds them in the meantime. *)
Definition pendingBytes (pending : option bytes) : bytes :=
  match pending with Some a => a | None => [] end.

Definition pendingCells (pending : option bytes) : list Character :=
  match pending with
  | Some a => [mkCharacter 32 [] a]
  | None => []
  end.

(** The cells that a stream leaves on a line when no SGR is selected, and
    the sequences that still wait for a rune at its end. *)
Fixpoint itemCells (pending : option bytes) (items : list StreamItem)
    : list Character * option bytes :=
  match items with
  | [] => ([], pending)
  | ItemRune r :: rest =>
      let '(cs, p) := itemCells None rest in
      (mkCharacter r [] (pendingBytes pending) :: cs, p)
  | ItemEscape seq :: rest =>
      itemCells (Some (pendingBytes pending ++ seq)) rest
  end.

(** ** Command lines (main.go) *)

Module Command.

(** [strings.HasPrefix]. *)
Fixpoint HasPrefix (s prefix : bytes) : bool :=
  match prefix, s with
  | [], _ => true
  | _ :: _, [] => false
  | p :: prefix', c :: s' => Ascii.eqb c p && HasPrefix s' prefix'
  end.

(** [strings.Contains]. *)
Fixpoint Contains (s substr : bytes) : bool :=
  HasPrefix s substr
  || match s with
     | [] => false
     | _ :: s' => Contains s' substr
     end.

(** The scan of [strings.ReplaceAll]: [skip] bytes of a match are still to
    be passed over. *)
Fixpoint replaceFrom (old new : bytes) (skip : nat) (s : bytes) : bytes :=
  match s with
  | [] => []
  | c :: rest =>
      match skip with
      | S k => replaceFrom old new k rest
      | O =>
          if HasPrefix s old then
            new ++ replaceFrom old new (Datatypes.length old - 1) rest
          else c :: replaceFrom old new 0 rest
      end
  end.

(** [strings.ReplaceAll(s, old, new)] for a non-empty [old]: the matches
    are taken from the left and do not overlap.  [instantiateCommandString]
    calls it with a template that it has compared with the empty string
    before. *)
Definition ReplaceAll (s old new : bytes) : bytes := replaceFrom old new 0 s.

(** The loop of [instantiateCommandString] over the words of the command:
    the command after the loop and [replacedIn]. *)
Fixpoint substituteLoop (flTemplate argument : bytes) (command : list bytes)
    (replacedIn : Z) : list bytes * Z :=
  match command with
  | [] => ([], replacedIn)
  | word :: rest =>
      if negb (Contains word flTemplate) then
        let '(rest', n) := substituteLoop flTemplate argument rest replacedIn in
        (word :: rest', n)
      else
        let '(rest', n) :=
          substituteLoop flTemplate argument rest (GoInt.add replacedIn 1) in
        (ReplaceAll word flTemplate argument :: rest', n)
  end.

(** [instantiateCommandString], the flag [*flTemplate] being an argument.
    The callers pass a clone of the command, so the words that the loop
    overwrites are those of the result alone. *)
Definition instantiateCommandString (flTemplate : bytes)
    (command : list bytes) (argument : bytes) : list bytes :=
  match flTemplate with
  | [] => command ++ [argument]
  | _ :: _ =>
      let '(command', replacedIn) :=
        substituteLoop flTemplate argument command 0 in
      if replacedIn =? 0 then command' ++ [argument] else command'
  end.

(** [bufio.Reader.ReadString('\n')] on what is left of the input: the bytes
    up to the first line feed, with it, what is left after them, and
    whether the end of the input was reached ([err == io.EOF]). *)
Fixpoint ReadString (input : bytes) : bytes * bytes * bool :=
  match input with
  | [] => ([], [], true)
  | c :: rest =>
      if Ascii.eqb c "010" then ([c], rest, false)
      else let '(line, rest', eof) := ReadString rest in (c :: line, rest', eof)
  end.

(** [strings.TrimSuffix(line, "\n")]. *)
Fixpoint TrimSuffixLF (line : bytes) : bytes :=
  match line with
  | [] => []
  | [c] => if Ascii.eqb c "010" then [] else [c]
  | c :: rest => c :: TrimSuffixLF rest
  end.

(** The loop of [startProcessesFromStdin] over the standard input, a list
    of bytes that ends with the end of file: the lines it instantiates the
    command with, in order.  Every turn but the last consumes one byte or
    more, so that [fuel] turns are enough for an input of fewer bytes. *)
Fixpoint stdinLoop (fuel : nat) (input : bytes) : option (list bytes) :=
  match fuel with
  | O => None
  | S fuel' =>
      let '(line, rest, eof) := ReadString input in
      let line' := TrimSuffixLF line in
      let submitted := if 0 <? len line' then [line'] else [] in
      if eof then Some submitted
      else option_map (app submitted) (stdinLoop fuel' rest)
  end.

Definition stdinLines (input : bytes) : option (list bytes) :=
  stdinLoop (S (Datatypes.length input)) input.

(** [startProcessesFromStdin]: the command lines handed to [run], in the
    order in which they are sent to the channel. *)
Definition startProcessesFromStdin (flTemplate : bytes) (command : list bytes)
    (input : bytes) : option (list (list bytes)) :=
  option_map (map (instantiateCommandString flTemplate command))
             (stdinLines input).

(** The loop of [startProcessesFromCliArguments] over [args.data]: the
    command lines handed to [run], in the order in which they are sent to
    the channel.  [noLongerSpawnChildren i] is what the load of the atomic
    flag of that name gives at the turn of index [i]; the flag is set by the
    loop of [start], which runs beside this one. *)
Fixpoint cliLoop (noLongerSpawnChildren : nat -> bool) (flTemplate : bytes)
    (command : list bytes) (i : nat) (data : list bytes)
    : list (list bytes) :=
  match data with
  | [] => []
  | argument :: rest =>
      if noLongerSpawnChildren i then []
      else instantiateCommandString flTemplate command argument
           :: cliLoop noLongerSpawnChildren flTemplate command (S i) rest
  end.

Definition startProcessesFromCliArguments
    (noLongerSpawnChildren : nat -> bool) (flTemplate : bytes)
    (command : list bytes) (data : list bytes) : list (list bytes) :=
  cliLoop noLongerSpawnChildren flTemplate command 0 data.

(** The text of standard input that has the lines [ls], one per line. *)
Definition unlines (ls : list bytes) : bytes :=
  List.concat (map (fun l => l ++ LF) ls).

Definition noLF (l : bytes) : Prop := ~ In "010"%char l.

Definition notEmpty (l : bytes) : bool := 0 <? len l.

End Command.

(** * Properties *)

(** ** Go integers *)

Lemma wrap_inRange (z : Z) : GoInt.inRange z -> GoInt.wrap z = z.
Proof.
  unfold GoInt.inRange, GoInt.minInt, GoInt.maxInt, GoInt.wrap. intros H.
  rewrite Z.mod_small by lia. lia.
Qed.

Lemma wrap_is_inRange (z : Z) : GoInt.inRange (GoInt.wrap z).
Proof.
  unfold GoInt.inRange, GoInt.minInt, GoInt.maxInt, GoInt.wrap.
  pose proof (Z.mod_pos_bound (z + 9223372036854775808) 18446744073709551616).
  lia.
Qed.

Lemma add_inRange (a b : Z) :
  GoInt.inRange (a + b) -> GoInt.add a b = a + b.
Proof. apply wrap_inRange. Qed.

Lemma sub_inRange (a b : Z) :
  GoInt.inRange (a - b) -> GoInt.sub a b = a - b.
Proof. apply wrap_inRange. Qed.

(** Side conditions on the range of [int]. *)
Ltac int_range :=
  unfold GoInt.inRange, GoInt.minInt, GoInt.maxInt in *; lia.

(** ** Lists and lengths *)

Lemma len_nonneg {A : Type} (l : list A) : 0 <= len l.
Proof. unfold len. lia. Qed.

Lemma len_app {A : Type} (l m : list A) : len (l ++ m) = len l + len m.
Proof. unfold len. rewrite length_app. lia. Qed.

Lemma len_cons {A : Type} (a : A) (l : list A) : len (a :: l) = len l + 1.
Proof. unfold len. simpl Datatypes.length. lia. Qed.

Lemma length_updateNth {A : Type} (n : nat) (f : A -> A) (l : list A) :
  Datatypes.length (updateNth n f l) = Datatypes.length l.
Proof.
  revert n. induction l as [|a l IH]; intros n; destruct n; simpl;
    try reflexivity.
  now rewrite IH.
Qed.

Lemma len_updateNth {A : Type} (n : nat) (f : A -> A) (l : list A) :
  len (updateNth n f l) = len l.
Proof. unfold len. now rewrite length_updateNth. Qed.

(** ** The result monad *)

Lemma bind_Ok_inv {A B : Type} (m : result A) (k : A -> result B) (b : B) :
  bind m k = Ok b -> exists a, m = Ok a /\ k a = Ok b.
Proof.
  destruct m as [a|p]; simpl; intros H; [eauto | discriminate].
Qed.

Lemma repeatM_invariant {A : Type} (P : A -> Prop) (f : A -> result A) :
  (forall a a', P a -> f a = Ok a' -> P a') ->
  forall n a a', P a -> repeatM n f a = Ok a' -> P a'.
Proof.
  intros Hf. induction n as [|n IH]; simpl; intros a a' Ha H.
  - now inversion H; subst.
  - apply bind_Ok_inv in H as (a1 & H1 & H2). eauto.
Qed.

(** ** Emission of a line *)

Lemma appendToScrollback_nil (s : Screen) : appendToScrollback [] s = s.
Proof.
  destruct s. unfold appendToScrollback, setQueuedScrollbackOutput. simpl.
  now rewrite app_nil_r.
Qed.

Lemma appendToScrollback_app (a b : bytes) (s : Screen) :
  appendToScrollback b (appendToScrollback a s) = appendToScrollback (a ++ b) s.
Proof.
  destruct s. unfold appendToScrollback, setQueuedScrollbackOutput. simpl.
  now rewrite app_assoc.
Qed.

Lemma fold_toCSI (l : SGRList) (s : Screen) :
  fold_left (fun acc a => appendToScrollback (SGR.toCSI a) acc) l s
  = appendToScrollback (List.concat (map SGR.toCSI l)) s.
Proof.
  revert s. induction l as [|a l IH]; intros s; simpl.
  - now rewrite appendToScrollback_nil.
  - now rewrite IH, appendToScrollback_app.
Qed.

Lemma sendCharacters_emitCells (cs : list Character) :
  forall (previous : SGRList) (s : Screen) (didSetSGR : bool),
    sendCharacters cs previous (s, didSetSGR)
    = (appendToScrollback (emitCells previous cs) s,
       didSetSGR || anySGRSet previous cs).
Proof.
  induction cs as [|c cs IH]; intros previous s didSetSGR; simpl.
  - now rewrite appendToScrollback_nil, orb_false_r.
  - unfold emitCell, resetSGR.
    destruct (SGRs.equals (sgr c) previous); simpl negb; cbv iota; simpl fst;
      simpl snd; rewrite IH.
    + rewrite !appendToScrollback_app. f_equal.
      now rewrite app_nil_l, <- !app_assoc.
    + rewrite fold_toCSI, !appendToScrollback_app. f_equal.
      * now rewrite <- !app_assoc.
      * now rewrite orb_true_r.
Qed.

Lemma sendLineToScrollbackBuffer_emitLine (line : Line) (s : Screen) :
  sendLineToScrollbackBuffer line s
  = setQueuedScrollbackOutput (emitLine (QueuedScrollbackOutput s) line) s.
Proof.
  unfold sendLineToScrollbackBuffer, emitLine.
  replace (sgr zeroCharacter) with (@nil SelectGraphicRenditionAttribute)
    by reflexivity.
  destruct (0 <? len (QueuedScrollbackOutput s));
    rewrite sendCharacters_emitCells; simpl orb;
    destruct (anySGRSet [] (characters line));
    rewrite ?appendToScrollback_app;
    destruct s; unfold appendToScrollback, setQueuedScrollbackOutput; simpl;
    rewrite ?app_nil_r, <- ?app_assoc; reflexivity.
Qed.

Lemma fold_sendLine (ls : list Line) (s : Screen) :
  fold_left (fun acc line => sendLineToScrollbackBuffer line acc) ls s
  = setQueuedScrollbackOutput
      (fold_left emitLine ls (QueuedScrollbackOutput s)) s.
Proof.
  revert s. induction ls as [|l ls IH]; intros s; simpl.
  - now destruct s.
  - rewrite IH, sendLineToScrollbackBuffer_emitLine. now destruct s.
Qed.

Lemma appendMove_moveBytes (n : Z) (positive negative : string) (s : Screen) :
  appendMove n positive negative s
  = appendToScrollback (moveBytes n positive negative) s.
Proof.
  unfold appendMove, moveBytes.
  destruct (0 <? n); [reflexivity|].
  destruct (n <? 0); [reflexivity|].
  now rewrite appendToScrollback_nil.
Qed.

Lemma End_endScrollback (s : Screen) (line : Line) :
  Ended s = false ->
  currentLine s = Ok line ->
  End s = Ok (mkScreen [] (desiredWidth s) (maxHeight s) (positionX s)
                (positionY s) true (endScrollback s line) (currentSGRs s)).
Proof.
  intros HE HL. unfold End. rewrite HE, fold_sendLine.
  destruct s as [ls w mh x y e q cur]. simpl in *.
  unfold currentLine, lineAt in *. simpl in *.
  destruct (y <? 0); [discriminate|].
  destruct (nth_error ls (Z.to_nat y)) as [l|]; [|discriminate].
  inversion HL; subst l. simpl.
  rewrite !appendMove_moveBytes.
  unfold appendToScrollback, setQueuedScrollbackOutput, setLines,
    currentScreenHeight, endScrollback. simpl.
  now rewrite <- !app_assoc.
Qed.

(** ** Preservation of the invariants *)

Lemma lineAt_Ok (i : Z) (s : Screen) :
  0 <= i < len (lines s) -> exists l, lineAt i s = Ok l.
Proof.
  intros H. unfold lineAt. destruct (Z.ltb_spec i 0); [lia|].
  destruct (nth_error (lines s) (Z.to_nat i)) as [l|] eqn:E; [eauto|].
  apply nth_error_None in E. unfold len in H. lia.
Qed.

Lemma characterAt_Ok_inv (x : Z) (f : Character -> Character) (l l' : Line) :
  characterAt x f l = Ok l' -> 0 <= x < GoInt.maxInt.
Proof.
  unfold characterAt.
  destruct (Z.ltb_spec x 0); [discriminate|].
  destruct (Z.leb_spec GoInt.maxInt x); [discriminate|]. lia.
Qed.


(** A call that reaches the cell of the cursor leaves everything but the
    lines alone, keeps their number, and returns only when the column is
    one that a slice can hold. *)
Lemma withCurrentCharacter_Ok_inv (f : Character -> Character) (s s' : Screen) :
  withCurrentCharacter f s = Ok s' ->
  len (lines s') = len (lines s)
  /\ maxHeight s' = maxHeight s
  /\ positionX s' = positionX s
  /\ positionY s' = positionY s
  /\ currentSGRs s' = currentSGRs s
  /\ QueuedScrollbackOutput s' = QueuedScrollbackOutput s
  /\ Ended s' = Ended s
  /\ 0 <= positionX s < GoInt.maxInt.
Proof.
  unfold withCurrentCharacter. intros H.
  apply bind_Ok_inv in H as (l & _ & H).
  apply bind_Ok_inv in H as (l' & Hc & H).
  apply characterAt_Ok_inv in Hc.
  inversion H; subst s'. simpl. rewrite len_updateNth. repeat split; lia.
Qed.


Lemma withCurrentCharacter_preserves (f : Character -> Character) (s s' : Screen) :
  ScreenOK s -> withCurrentCharacter f s = Ok s' -> ScreenOK s'.
Proof.
  intros [[] Hm] H.
  apply withCurrentCharacter_Ok_inv in H as (Hl & Hh & Hx & Hy & _).
  split; [constructor|]; lia.
Qed.

Lemma nextLine_preserves (s s' : Screen) :
  ScreenOK s -> nextLine s = Ok s' -> ScreenOK s'.
Proof.
  intros [[] Hm]. unfold nextLine, currentScreenHeight.
  rewrite sub_inRange
    by int_range.
  destruct (Z.ltb_spec (positionY s) (len (lines s) - 1)) as [Hlt|Hge].
  - rewrite add_inRange
      by int_range.
    simpl. destruct (Z.ltb_spec (maxHeight s) (len (lines s))) as [Hgt|Hle];
      [lia|].
    intros E. inversion E; subst s'. simpl. split; [constructor|]; simpl; lia.
  - simpl. rewrite len_app.
    change (len [NewLine]) with 1.
    destruct (Z.ltb_spec (maxHeight s) (len (lines s) + 1)) as [Hgt|Hle].
    + destruct (lines s) as [|first rest] eqn:El; simpl.
      * unfold len in *. simpl in *. lia.
      * intros E. inversion E; subst s'.
        rewrite sendLineToScrollbackBuffer_emitLine. simpl.
        rewrite ?len_cons in *.
        split; [constructor|]; simpl; rewrite ?len_app;
          change (len [NewLine]) with 1; lia.
    + intros E. inversion E; subst s'.
      split; [constructor|]; simpl; rewrite ?len_app;
        change (len [NewLine]) with 1; lia.
Qed.

Lemma prevLine_preserves (s : Screen) : ScreenOK s -> ScreenOK (prevLine s).
Proof.
  intros [[] Hm]. unfold prevLine.
  destruct (Z.leb_spec (positionY s) 0); [now split|].
  rewrite sub_inRange
    by int_range.
  split; [constructor|]; simpl; lia.
Qed.

Lemma floor_preserves (x : Z) (s : Screen) :
  ScreenOK s ->
  ScreenOK (if positionX (setPositionX x s) <? 0
            then setPositionX 0 (setPositionX x s)
            else setPositionX x s).
Proof.
  intros [[] Hm]. simpl.
  destruct (Z.ltb_spec x 0); (split; [constructor|]); simpl; lia.
Qed.

Lemma prevCharacter_preserves (s : Screen) :
  ScreenOK s -> ScreenOK (prevCharacter s).
Proof. apply floor_preserves. Qed.

Lemma outNormalCharacter_preserves (r : Z) (s s' : Screen) :
  ScreenOK s -> outNormalCharacter r s = Ok s' -> ScreenOK s'.
Proof.
  intros HI H. unfold outNormalCharacter in H.
  apply bind_Ok_inv in H as (s1 & H1 & H).
  inversion H; subst s'. unfold setCurrentCharacterTo in H1.
  pose proof (withCurrentCharacter_preserves _ _ _ HI H1) as [[] Hm].
  apply withCurrentCharacter_Ok_inv in H1 as (_ & _ & Hx & _ & _ & _ & _ & Hr).
  unfold nextCharacter. rewrite add_inRange
    by int_range.
  split; [constructor|]; simpl; lia.
Qed.

Lemma outRelativeMoveCursorVertical_preserves (n : Z) (s s' : Screen) :
  ScreenOK s -> outRelativeMoveCursorVertical n s = Ok s' -> ScreenOK s'.
Proof.
  intros HI H. unfold outRelativeMoveCursorVertical in H.
  apply bind_Ok_inv in H as (s1 & H1 & H).
  apply (repeatM_invariant ScreenOK) in H1; [|exact nextLine_preserves|exact HI].
  apply (repeatM_invariant ScreenOK) in H; [exact H| |exact H1].
  intros a a' Ha E. inversion E; subst a'. now apply prevLine_preserves.
Qed.

Lemma deleteLeftLoop_preserves (n : nat) :
  forall s s', ScreenOK s -> deleteLeftLoop n s = Ok s' -> ScreenOK s'.
Proof.
  induction n as [|n IH]; simpl; intros s s' HI H.
  - now inversion H; subst.
  - apply bind_Ok_inv in H as (s2 & H2 & H).
    assert (ScreenOK s2) as HI2
      by (eapply withCurrentCharacter_preserves;
          [apply prevCharacter_preserves, HI | exact H2]).
    destruct (positionX s2 =? 0); [now inversion H; subst|eauto].
Qed.

Lemma outSelectGraphicRenditionAttribute_preserves
    (a : SelectGraphicRenditionAttribute) (s : Screen) :
  ScreenOK s -> ScreenOK (outSelectGraphicRenditionAttribute a s).
Proof.
  intros [[] Hm]. unfold outSelectGraphicRenditionAttribute.
  destruct (SGR.isUnsetAll a); (split; [constructor|]); simpl; lia.
Qed.

Lemma applyOp_preserves (op : ScreenOp) (s s' : Screen) :
  ScreenOK s -> applyOp op s = Ok s' -> ScreenOK s'.
Proof.
  intros HI. destruct op; simpl; intros H;
    try (inversion H; subst s').
  - eapply outNormalCharacter_preserves; eauto.
  - eapply nextLine_preserves; eauto.
  - now apply prevLine_preserves.
  - now apply prevCharacter_preserves.
  - eapply outRelativeMoveCursorVertical_preserves; eauto.
  - now apply floor_preserves.
  - eapply outRelativeMoveCursorVertical_preserves; eauto.
  - now apply floor_preserves.
  - eapply deleteLeftLoop_preserves; eauto.
  - eapply withCurrentCharacter_preserves; eauto.
  - now apply outSelectGraphicRenditionAttribute_preserves.
Qed.

Lemma runOps_preserves (ops : list ScreenOp) :
  forall s s', ScreenOK s -> runOps ops s = Ok s' -> ScreenOK s'.
Proof.
  induction ops as [|op ops IH]; simpl; intros s s' HI H.
  - now inversion H; subst.
  - apply bind_Ok_inv in H as (s1 & H1 & H).
    eauto using applyOp_preserves.
Qed.

Lemma NewScreen_OK (width height : Z) :
  GoInt.inRange height -> ScreenOK (NewScreen width height).
Proof.
  unfold GoInt.inRange, GoInt.minInt, GoInt.maxInt. intros H.
  unfold NewScreen. split; [constructor|]; simpl;
    destruct (Z.leb_spec height 0); unfold len, GoInt.maxInt; simpl; lia.
Qed.

(** ** No panic but that of an oversized line *)

Lemma Safe_bind (m : result Screen) (k : Screen -> result Screen) :
  Safe m -> (forall a, ScreenOK a -> Safe (k a)) -> Safe (bind m k).
Proof. destruct m as [a|p]; simpl; auto. Qed.

Ltac case_if_in H :=
  match type of H with
  | context [if ?c then _ else _] => destruct c
  end.

Lemma nextLine_Safe (s : Screen) : ScreenOK s -> Safe (nextLine s).
Proof.
  intros HI. destruct (nextLine s) as [s'|p] eqn:E; simpl.
  - eapply nextLine_preserves; eauto.
  - exfalso. destruct HI as [[] Hm]. unfold nextLine in E.
    destruct (positionY s <? GoInt.sub (currentScreenHeight s) 1); simpl in E;
      case_if_in E; try discriminate.
    + destruct (lines s); [|discriminate]. unfold len in *; simpl in *; lia.
    + destruct (lines s); discriminate.
Qed.

Lemma withCurrentCharacter_Safe (f : Character -> Character) (s : Screen) :
  ScreenOK s -> Safe (withCurrentCharacter f s).
Proof.
  intros HI. destruct (withCurrentCharacter f s) as [s'|p] eqn:E; simpl.
  - eapply withCurrentCharacter_preserves; eauto.
  - destruct HI as [[] Hm]. unfold withCurrentCharacter, currentLine in E.
    destruct (lineAt_Ok (positionY s) s) as (l & Hl); [lia|].
    rewrite Hl in E. simpl in E. unfold characterAt in E.
    destruct (Z.ltb_spec (positionX s) 0); [lia|].
    destruct (GoInt.maxInt <=? positionX s); simpl in E; congruence.
Qed.

Lemma repeatM_Safe (f : Screen -> result Screen) :
  (forall a, ScreenOK a -> Safe (f a)) ->
  forall n s, ScreenOK s -> Safe (repeatM n f s).
Proof.
  intros Hf. induction n as [|n IH]; simpl; intros s HI; [exact HI|].
  apply Safe_bind; auto.
Qed.

Lemma outRelativeMoveCursorVertical_Safe (n : Z) (s : Screen) :
  ScreenOK s -> Safe (outRelativeMoveCursorVertical n s).
Proof.
  intros HI. unfold outRelativeMoveCursorVertical. apply Safe_bind.
  - apply repeatM_Safe; [exact nextLine_Safe | exact HI].
  - intros a Ha. apply repeatM_Safe; [|exact Ha].
    intros b Hb. simpl. now apply prevLine_preserves.
Qed.

Lemma deleteLeftLoop_Safe (n : nat) :
  forall s, ScreenOK s -> Safe (deleteLeftLoop n s).
Proof.
  induction n as [|n IH]; simpl; intros s HI; [exact HI|].
  apply Safe_bind.
  - apply withCurrentCharacter_Safe, prevCharacter_preserves, HI.
  - intros a Ha. destruct (positionX a =? 0); [exact Ha | now apply IH].
Qed.

Lemma applyOp_Safe (op : ScreenOp) (s : Screen) :
  ScreenOK s -> Safe (applyOp op s).
Proof.
  intros HI. destruct op; simpl.
  - unfold outNormalCharacter.
    destruct (setCurrentCharacterTo r s) as [s1|p] eqn:E; simpl.
    + eapply (outNormalCharacter_preserves r s); [exact HI|].
      unfold outNormalCharacter. now rewrite E.
    + pose proof (withCurrentCharacter_Safe
                    (writeCharacter r (currentSGRs s)) s HI) as HS.
      unfold setCurrentCharacterTo in E. now rewrite E in HS.
  - now apply nextLine_Safe.
  - now apply prevLine_preserves.
  - now apply prevCharacter_preserves.
  - now apply outRelativeMoveCursorVertical_Safe.
  - now apply floor_preserves.
  - now apply outRelativeMoveCursorVertical_Safe.
  - now apply floor_preserves.
  - now apply deleteLeftLoop_Safe.
  - now apply withCurrentCharacter_Safe.
  - now apply outSelectGraphicRenditionAttribute_preserves.
Qed.

Lemma runOps_Safe (ops : list ScreenOp) :
  forall s, ScreenOK s -> Safe (runOps ops s).
Proof.
  induction ops as [|op ops IH]; simpl; intros s HI; [exact HI|].
  apply Safe_bind; [now apply applyOp_Safe | exact IH].
Qed.

(** On a screen made by [NewScreen], a sequence of operations returns a
    screen that satisfies the invariants, unless it writes at a column that
    no slice can hold. *)
Lemma runOps_NewScreen_Safe (width height : Z) (ops : list ScreenOp) :
  GoInt.inRange height -> Safe (runOps ops (NewScreen width height)).
Proof. intros Hh. apply runOps_Safe, NewScreen_OK, Hh. Qed.

(** C2. Bounded height and cursor containment: on a screen made by
    [NewScreen], after the last operation of any sequence of operations
    (hence after every operation, a prefix of a sequence being a sequence)
    the number of lines is between 1 and [maxHeight], [positionY] is the
    index of a line and [positionX] is not negative. *)
Theorem invariants_after_every_operation
    (width height : Z) (ops : list ScreenOp) (s : Screen) :
  GoInt.inRange height ->
  runOps ops (NewScreen width height) = Ok s ->
  1 <= len (lines s) <= maxHeight s
  /\ 0 <= positionY s < len (lines s)
  /\ 0 <= positionX s.
Proof.
  intros Hh H.
  pose proof (runOps_NewScreen_Safe width height ops Hh) as HS.
  rewrite H in HS. destruct HS as [[] _]. lia.
Qed.

Lemma invariants_after_every_operation_witness :
  exists s,
    runOps [OpNormalCharacter 65; OpNextLine; OpNormalCharacter 66;
            OpNextLine; OpNextLine; OpDeleteLeft 5;
            OpRelativeMoveCursorVertical (-3);
            OpSelectGraphicRenditionAttribute (SGRPrimitive 31);
            OpAbsoluteMoveCursorHorizontal (-4); OpNormalCharacter 67]
           (NewScreen 80 2) = Ok s
    /\ 1 <= len (lines s) <= maxHeight s
    /\ 0 <= positionY s < len (lines s)
    /\ 0 <= positionX s.
Proof.
  eexists. split; [vm_compute; reflexivity|].
  apply (invariants_after_every_operation 80 2
           [OpNormalCharacter 65; OpNextLine; OpNormalCharacter 66;
            OpNextLine; OpNextLine; OpDeleteLeft 5;
            OpRelativeMoveCursorVertical (-3);
            OpSelectGraphicRenditionAttribute (SGRPrimitive 31);
            OpAbsoluteMoveCursorHorizontal (-4); OpNormalCharacter 67]).
  - int_range.
  - vm_compute. reflexivity.
Defined.

(** ** Resize *)

(** C10. [Resize] has an empty body: whatever the width and the height it
    is given, the screen it returns is the screen it received, with the same
    lines, cursor, current SGRs, queued scrollback, ended flag and
    dimensions. *)
Theorem Resize_leaves_the_screen_unchanged (width height : Z) (s : Screen) :
  Resize width height s = s
  /\ lines (Resize width height s) = lines s
  /\ positionX (Resize width height s) = positionX s
  /\ positionY (Resize width height s) = positionY s
  /\ currentSGRs (Resize width height s) = currentSGRs s
  /\ QueuedScrollbackOutput (Resize width height s) = QueuedScrollbackOutput s
  /\ Ended (Resize width height s) = Ended s
  /\ desiredWidth (Resize width height s) = desiredWidth s
  /\ maxHeight (Resize width height s) = maxHeight s.
Proof. unfold Resize. repeat split. Qed.

(** ** The fields that no operation changes *)

Lemma withCurrentCharacter_fixedFields (f : Character -> Character)
    (s s' : Screen) :
  withCurrentCharacter f s = Ok s' -> fixedFields s' = fixedFields s.
Proof.
  unfold withCurrentCharacter. intros H.
  apply bind_Ok_inv in H as (l & _ & H).
  apply bind_Ok_inv in H as (l' & _ & H).
  now inversion H; subst s'.
Qed.

Lemma nextLine_fixedFields (s s' : Screen) :
  nextLine s = Ok s' -> fixedFields s' = fixedFields s.
Proof.
  unfold nextLine.
  destruct (positionY s <? GoInt.sub (currentScreenHeight s) 1);
    cbn [maxHeight lines setPositionY setLines];
    match goal with |- context [if ?c then _ else _] => destruct c end;
    try (intros [= <-]; reflexivity);
    match goal with |- context [match ?l with [] => _ | _ => _ end] =>
      destruct l end;
    try discriminate; intros [= <-];
    rewrite sendLineToScrollbackBuffer_emitLine; reflexivity.
Qed.

Lemma prevLine_fixedFields (s : Screen) :
  fixedFields (prevLine s) = fixedFields s.
Proof. unfold prevLine. now destruct (positionY s <=? 0). Qed.

Lemma floor_fixedFields (x : Z) (s : Screen) :
  fixedFields (if positionX (setPositionX x s) <? 0
               then setPositionX 0 (setPositionX x s)
               else setPositionX x s)
  = fixedFields s.
Proof. now destruct (positionX (setPositionX x s) <? 0). Qed.

Lemma deleteLeftLoop_fixedFields (n : nat) :
  forall s s', deleteLeftLoop n s = Ok s' -> fixedFields s' = fixedFields s.
Proof.
  induction n as [|n IH]; simpl; intros s s' H.
  - now inversion H; subst.
  - apply bind_Ok_inv in H as (s2 & H2 & H).
    apply withCurrentCharacter_fixedFields in H2.
    assert (fixedFields s2 = fixedFields s) as E
      by (rewrite H2; apply floor_fixedFields).
    destruct (positionX s2 =? 0).
    + now inversion H; subst.
    + apply IH in H. congruence.
Qed.

Lemma outRelativeMoveCursorVertical_fixedFields (n : Z) (s s' : Screen) :
  outRelativeMoveCursorVertical n s = Ok s' -> fixedFields s' = fixedFields s.
Proof.
  unfold outRelativeMoveCursorVertical. intros H.
  apply bind_Ok_inv in H as (s1 & H1 & H).
  apply (repeatM_invariant (fun a => fixedFields a = fixedFields s)) in H1;
    [|intros a a' Ha E; apply nextLine_fixedFields in E; congruence
     |reflexivity].
  apply (repeatM_invariant (fun a => fixedFields a = fixedFields s)) in H;
    [exact H| |exact H1].
  intros a a' Ha [= <-]. now rewrite prevLine_fixedFields.
Qed.

Lemma applyOp_fixedFields (op : ScreenOp) (s s' : Screen) :
  applyOp op s = Ok s' -> fixedFields s' = fixedFields s.
Proof.
  destruct op; simpl; intros H; try (injection H as <-).
  - unfold outNormalCharacter in H.
    apply bind_Ok_inv in H as (s1 & H1 & [= <-]).
    now apply withCurrentCharacter_fixedFields in H1.
  - now apply nextLine_fixedFields.
  - apply prevLine_fixedFields.
  - apply floor_fixedFields.
  - now apply outRelativeMoveCursorVertical_fixedFields in H.
  - apply floor_fixedFields.
  - now apply outRelativeMoveCursorVertical_fixedFields in H.
  - apply floor_fixedFields.
  - now apply deleteLeftLoop_fixedFields in H.
  - now apply withCurrentCharacter_fixedFields in H.
  - unfold outSelectGraphicRenditionAttribute.
    now destruct (SGR.isUnsetAll a).
Qed.

(** The dimensions and the ended flag of a screen are those it was made
    with, whatever operations it has gone through. *)
Lemma runOps_fixedFields (ops : list ScreenOp) :
  forall s s', runOps ops s = Ok s' -> fixedFields s' = fixedFields s.
Proof.
  induction ops as [|op ops IH]; simpl; intros s s' H.
  - now inversion H; subst.
  - apply bind_Ok_inv in H as (s1 & H1 & H).
    apply applyOp_fixedFields in H1. apply IH in H. congruence.
Qed.

(** ** End *)

Lemma End_when_Ended (s : Screen) :
  Ended s = true -> End s = Panic EndCalledTwice.
Proof. intros H. unfold End. now rewrite H. Qed.

(** On a screen that has not ended and whose cursor is on one of its lines
    [End] returns, with the ended flag set and no line left. *)
Lemma End_Ok (s : Screen) :
  Ended s = false ->
  0 <= positionY s < len (lines s) ->
  exists s', End s = Ok s' /\ Ended s' = true /\ lines s' = [].
Proof.
  intros HE Hy. destruct (lineAt_Ok _ _ Hy) as (line & Hl).
  eexists. split; [apply (End_endScrollback s line HE Hl)|].
  split; reflexivity.
Qed.

(** C6. [End] may be called once: on a screen made by [NewScreen], after
    any sequence of operations, the call returns a screen with the ended
    flag set, and a second call, on that screen, panics with "Screen.End()
    called twice". *)
Theorem End_at_most_once
    (width height : Z) (ops : list ScreenOp) (s : Screen) :
  GoInt.inRange height ->
  runOps ops (NewScreen width height) = Ok s ->
  exists s',
    End s = Ok s'
    /\ Ended s' = true
    /\ End s' = Panic EndCalledTwice.
Proof.
  intros Hh H.
  pose proof (runOps_preserves ops _ _ (NewScreen_OK width height Hh) H)
    as [[] _].
  pose proof (runOps_fixedFields ops _ _ H) as HF.
  assert (Ended s = false) as HE by (now injection HF).
  destruct (End_Ok s HE ltac:(lia)) as (s' & H' & HE' & _).
  exists s'. split; [exact H'|]. split; [exact HE'|].
  now apply End_when_Ended.
Qed.

Lemma End_at_most_once_witness :
  exists s s',
    runOps [OpNormalCharacter 104; OpNormalCharacter 105; OpNextLine]
           (NewScreen 80 24) = Ok s
    /\ End s = Ok s'
    /\ Ended s' = true
    /\ End s' = Panic EndCalledTwice.
Proof.
  eexists.
  destruct (End_at_most_once 80 24
              [OpNormalCharacter 104; OpNormalCharacter 105; OpNextLine] _
              ltac:(int_range) eq_refl) as (s' & H).
  exists s'. split; [reflexivity | exact H].
Defined.

(** C8. End determinism: two screens with the same lines, the same cursor,
    the same current SGRs, the same queued scrollback and the same ended
    flag get the same queued scrollback from [End] (or the same panic),
    whatever their other fields are. *)
Theorem End_deterministic (s1 s2 : Screen) :
  lines s1 = lines s2 ->
  positionX s1 = positionX s2 ->
  positionY s1 = positionY s2 ->
  currentSGRs s1 = currentSGRs s2 ->
  QueuedScrollbackOutput s1 = QueuedScrollbackOutput s2 ->
  Ended s1 = Ended s2 ->
  rmap QueuedScrollbackOutput (End s1) = rmap QueuedScrollbackOutput (End s2).
Proof.
  destruct s1 as [ls1 w1 mh1 x1 y1 e1 q1 c1], s2 as [ls2 w2 mh2 x2 y2 e2 q2 c2].
  simpl. intros -> -> -> -> -> ->.
  destruct e2.
  - now rewrite !End_when_Ended.
  - unfold End. simpl. rewrite !fold_sendLine. simpl.
    unfold currentLine, lineAt. simpl.
    destruct (y2 <? 0); [reflexivity|].
    destruct (nth_error ls2 (Z.to_nat y2)); [|reflexivity].
    simpl. rewrite !appendMove_moveBytes. reflexivity.
Qed.

Lemma End_deterministic_witness :
  rmap QueuedScrollbackOutput
       (End (mkScreen [mkLine [mkCharacter 97 [SGRPrimitive 1] []]; NewLine]
                      80 24 1 0 false (str "x") None))
  = rmap QueuedScrollbackOutput
         (End (mkScreen [mkLine [mkCharacter 97 [SGRPrimitive 1] []]; NewLine]
                        132 2 1 0 false (str "x") None)).
Proof.
  apply End_deterministic; reflexivity.
Defined.

(** ** nextLine *)

(** The claim C3 as the specification states it fails on a screen of one
    line: the code leaves [positionY] at 0, on the line it has just
    appended, where the specification decrements it. *)
Lemma nextLine_does_not_decrement_positionY :
  nextLine (NewScreen 80 1) <> Ok (specNextLine (NewScreen 80 1))
  /\ rmap positionY (nextLine (NewScreen 80 1)) = Ok 0
  /\ positionY (specNextLine (NewScreen 80 1)) = -1.
Proof.
  split; [|split]; [|reflexivity|reflexivity].
  intros H. apply (f_equal (rmap positionY)) in H. vm_compute in H.
  discriminate.
Qed.

(** C3, amended. On a screen that satisfies the invariants [nextLine]
    returns.  With the cursor on a line that is not the last one it
    increments [positionY] and touches neither the lines nor the scrollback.
    With the cursor on the last line it appends an empty line; when the
    number of lines then exceeds [maxHeight] it emits the first line to the
    scrollback and removes it, and [positionY] keeps its value, which is
    then the index of the appended line. *)
Theorem nextLine_scrolls_under_the_cursor (s : Screen) :
  ScreenOK s ->
  exists s',
    nextLine s = Ok s'
    /\ (positionY s < len (lines s) - 1 ->
        positionY s' = positionY s + 1
        /\ lines s' = lines s
        /\ QueuedScrollbackOutput s' = QueuedScrollbackOutput s)
    /\ (positionY s = len (lines s) - 1 ->
        (len (lines s) + 1 <= maxHeight s ->
         lines s' = lines s ++ [NewLine]
         /\ QueuedScrollbackOutput s' = QueuedScrollbackOutput s)
        /\ (maxHeight s < len (lines s) + 1 ->
            exists first rest,
              lines s = first :: rest
              /\ lines s' = rest ++ [NewLine]
              /\ QueuedScrollbackOutput s'
                 = emitLine (QueuedScrollbackOutput s) first
              /\ positionY s' = positionY s
              /\ positionY s' = len (lines s') - 1)).
Proof.
  intros [[] Hm]. unfold nextLine, currentScreenHeight.
  rewrite sub_inRange
    by int_range.
  destruct (Z.ltb_spec (positionY s) (len (lines s) - 1)) as [Hlt|Hge].
  - rewrite add_inRange
      by int_range.
    simpl. destruct (Z.ltb_spec (maxHeight s) (len (lines s))) as [Hgt|Hle];
      [lia|].
    eexists. split; [reflexivity|]. split; [now simpl | lia].
  - simpl. rewrite len_app. change (len [NewLine]) with 1.
    destruct (Z.ltb_spec (maxHeight s) (len (lines s) + 1)) as [Hgt|Hle].
    + destruct (lines s) as [|first rest] eqn:El.
      * unfold len in *. simpl in *. lia.
      * cbn [app lines setLines]. eexists. split; [reflexivity|].
        rewrite sendLineToScrollbackBuffer_emitLine.
        cbn [lines setLines setQueuedScrollbackOutput positionY
             QueuedScrollbackOutput].
        rewrite ?len_cons, ?len_app in *. change (len [NewLine]) with 1.
        split; [lia|].
        intros Hy. split; [lia|]. intros _. exists first, rest.
        repeat split; lia.
    + eexists. split; [reflexivity|]. split; [lia|].
      intros Hy. split; [now simpl | lia].
Qed.

Lemma nextLine_scrolls_under_the_cursor_witness :
  exists s',
    nextLine (NewScreen 80 1) = Ok s'
    /\ lines s' = [NewLine]
    /\ positionY s' = 0.
Proof.
  assert (ScreenOK (NewScreen 80 1)) as HI
    by (apply NewScreen_OK; int_range).
  destruct (nextLine_scrolls_under_the_cursor (NewScreen 80 1) HI)
    as (s' & Hn & _ & Hlast).
  destruct (Hlast eq_refl) as (_ & Hev).
  destruct (Hev eq_refl) as (first & rest & Hl & Hl' & _ & Hy & _).
  exists s'. split; [exact Hn|]. split; [|exact Hy].
  rewrite Hl'. inversion Hl. reflexivity.
Defined.

(** ** The cursor movements of End *)

(** C4, on the code. After "abc" and a carriage return the cursor of the
    screen is in column 0 and the replay of the line leaves the real cursor
    in column 3: [End] emits [ESC [ 3 C], three columns to the right.  With
    the cursor of the screen on the first of two lines the replay leaves
    the real cursor on the second: [End] emits [ESC [ 1 B], one line
    down. *)
Theorem End_moves_away_from_the_cursor :
  (exists s s',
     runOps [OpNormalCharacter 97; OpNormalCharacter 98; OpNormalCharacter 99;
             OpAbsoluteMoveCursorHorizontal 0] (NewScreen 80 24) = Ok s
     /\ positionX s = 0 /\ positionY s = 0
     /\ End s = Ok s'
     /\ QueuedScrollbackOutput s' = str "abc" ++ ESC ++ str "[3C")
  /\ (exists s s',
        runOps [OpNormalCharacter 97; OpNextLine; OpNextLine; OpPrevLine]
               (NewScreen 80 24) = Ok s
        /\ positionX s = 1 /\ positionY s = 0 /\ len (lines s) = 2
        /\ End s = Ok s'
        /\ QueuedScrollbackOutput s' = str "a" ++ LF ++ ESC ++ str "[1B").
Proof.
  split; eexists; eexists; (split; [vm_compute; reflexivity|]);
    repeat split.
Qed.

(** ** The line terminator between emitted lines *)

(** C5, on the code. On a screen of one line the input "\nb" makes two
    lines: the first, empty, is emitted when it is evicted and the second
    is emitted by [End].  The second is not the first line emitted, and no
    line feed comes before it: the scrollback is "b". *)
Theorem no_line_feed_after_an_empty_first_line :
  exists s s',
    AdvanceRunes [10; 98] (NewScreen 80 1) = Ok s
    /\ s = mkScreen [mkLine [mkCharacter 98 [] []]] 80 1 1 0 false [] None
    /\ End s = Ok s'
    /\ QueuedScrollbackOutput s' = str "b"
    /\ QueuedScrollbackOutput
         (sendLineToScrollbackBuffer (mkLine [mkCharacter 98 [] []])
            (sendLineToScrollbackBuffer NewLine (NewScreen 80 1)))
       = str "b".
Proof.
  eexists; eexists. split; [vm_compute; reflexivity|]. repeat split.
Qed.

(** ** Replay of printable text *)

Lemma printableRune_not_LF (r : Z) : printableRune r -> r <> 10.
Proof. unfold printableRune. lia. Qed.

Lemma updateNth_app_length {A : Type} (f : A -> A) (l : list A) (a : A) :
  updateNth (Datatypes.length l) f (l ++ [a]) = l ++ [f a].
Proof. induction l as [|b l IH]; simpl; [reflexivity | now rewrite IH]. Qed.

Lemma extendTo_length (cs : list Character) :
  extendTo (len cs) cs = cs ++ [defaultCharacter].
Proof.
  unfold extendTo, len.
  replace (Z.to_nat (Z.of_nat (Datatypes.length cs) + 1) - Datatypes.length cs)%nat
    with 1%nat by lia.
  reflexivity.
Qed.

(** A rune written at the end of the only line of a screen with no current
    SGR. *)
Lemma outNormalCharacter_at_end
    (r : Z) (cs : list Character) (w mh : Z) (q : bytes) :
  len cs < GoInt.maxInt ->
  outNormalCharacter r (mkScreen [mkLine cs] w mh (len cs) 0 false q None)
  = Ok (mkScreen [mkLine (cs ++ [plainCell r])] w mh
                 (len (cs ++ [plainCell r])) 0 false q None).
Proof.
  intros Hlen. pose proof (len_nonneg cs) as Hpos.
  unfold outNormalCharacter, setCurrentCharacterTo, withCurrentCharacter,
    currentLine, lineAt, characterAt. simpl.
  destruct (Z.ltb_spec (len cs) 0); [lia|].
  destruct (Z.leb_spec GoInt.maxInt (len cs)); [lia|]. simpl.
  rewrite extendTo_length. unfold len at 1. rewrite Nat2Z.id.
  rewrite updateNth_app_length. unfold nextCharacter, setPositionX. simpl.
  rewrite add_inRange
    by int_range.
  rewrite len_app. reflexivity.
Qed.

Lemma AdvanceRunes_single_line (rs : list Z) :
  forall (cs : list Character) (w mh : Z) (q : bytes),
    Forall printableRune rs ->
    len cs + len rs < GoInt.maxInt ->
    AdvanceRunes rs (mkScreen [mkLine cs] w mh (len cs) 0 false q None)
    = Ok (mkScreen [mkLine (cs ++ map plainCell rs)] w mh
                   (len (cs ++ map plainCell rs)) 0 false q None).
Proof.
  unfold AdvanceRunes.
  induction rs as [|r rs IH]; intros cs w mh q HP Hlen; simpl.
  - now rewrite app_nil_r.
  - inversion HP as [|? ? Hr HP']; subst.
    unfold opOfRune at 1.
    destruct (Z.eqb_spec r 10) as [E|_];
      [now apply printableRune_not_LF in Hr|].
    simpl. rewrite len_cons in Hlen. pose proof (len_nonneg rs).
    rewrite outNormalCharacter_at_end by lia. simpl.
    rewrite IH; [|exact HP'|rewrite len_app; change (len [plainCell r]) with 1; lia].
    now rewrite <- app_assoc.
Qed.

Lemma emitCells_plain (rs : list Z) :
  emitCells [] (map plainCell rs) = encodeRunes rs.
Proof.
  induction rs as [|r rs IH]; simpl; [reflexivity|].
  unfold encodeRunes in *. simpl. now rewrite IH.
Qed.

Lemma anySGRSet_plain (rs : list Z) :
  anySGRSet [] (map plainCell rs) = false.
Proof. induction rs as [|r rs IH]; simpl; [reflexivity | exact IH]. Qed.

Lemma withoutTrailingDefault_plain (rs : list Z) :
  last rs 0 <> 32 ->
  withoutTrailingDefault (map plainCell rs) = map plainCell rs.
Proof.
  induction rs as [|r rs IH]; [reflexivity|].
  intros Hlast. destruct rs as [|r' rs].
  - simpl in *. unfold isDefaultCharacter. simpl.
    destruct (Z.eqb_spec r 32); [contradiction | reflexivity].
  - change (last (r :: r' :: rs) 0) with (last (r' :: rs) 0) in Hlast.
    specialize (IH Hlast).
    change (withoutTrailingDefault (map plainCell (r :: r' :: rs)))
      with (match withoutTrailingDefault (map plainCell (r' :: rs)) with
            | [] => if isDefaultCharacter (plainCell r) then []
                    else [plainCell r]
            | _ :: _ =>
                plainCell r :: withoutTrailingDefault (map plainCell (r' :: rs))
            end).
    rewrite IH. reflexivity.
Qed.

Lemma len_map {A B : Type} (f : A -> B) (l : list A) : len (map f l) = len l.
Proof. unfold len. now rewrite length_map. Qed.

Lemma sub_diag (n : Z) : GoInt.sub n n = 0.
Proof. unfold GoInt.sub. now rewrite Z.sub_diag. Qed.

(** The claim C1 as the specification states it fails on a screen of one
    line for the input "a\nb": the line feed leaves the cursor in column 1,
    so the second line is replayed as " b". *)
Lemma replay_of_a_line_feed_differs :
  exists s s',
    AdvanceRunes [97; 10; 98] (NewScreen 80 1) = Ok s
    /\ End s = Ok s'
    /\ QueuedScrollbackOutput s' = str "a" ++ LF ++ str " b"
    /\ QueuedScrollbackOutput s' <> encodeRunes [97; 10; 98].
Proof.
  eexists; eexists. split; [vm_compute; reflexivity|].
  split; [vm_compute; reflexivity|]. split; [reflexivity|].
  vm_compute. discriminate.
Qed.

(** A trailing space is replayed and then counted out of the length of the
    line: the input "a " comes back followed by [ESC [ 1 D]. *)
Lemma replay_of_a_trailing_space_differs :
  exists s s',
    AdvanceRunes [97; 32] (NewScreen 80 24) = Ok s
    /\ End s = Ok s'
    /\ QueuedScrollbackOutput s' = str "a " ++ ESC ++ str "[1D".
Proof.
  eexists; eexists. split; [vm_compute; reflexivity|].
  split; vm_compute; reflexivity.
Qed.

(** C1, amended. For an input stream that consists only of printable runes,
    with no line feed, and that does not end with a space, feeding the
    stream to a fresh screen and calling [End] leaves a scrollback equal to
    the stream. *)
Theorem replay_preserves_a_line_of_printable_text
    (width height : Z) (rs : list Z) :
  Forall printableRune rs ->
  last rs 0 <> 32 ->
  len rs < GoInt.maxInt ->
  exists s s',
    AdvanceRunes rs (NewScreen width height) = Ok s
    /\ End s = Ok s'
    /\ QueuedScrollbackOutput s' = encodeRunes rs.
Proof.
  intros HP Hlast Hlen.
  pose proof (AdvanceRunes_single_line rs []
                (if width <=? 0 then 1 else width)
                (if height <=? 0 then 1 else height) [] HP) as HA.
  change (len (@nil Character)) with 0 in HA. simpl app in HA.
  specialize (HA ltac:(lia)).
  eexists; eexists. split; [exact HA|].
  split; [apply End_endScrollback with (line := mkLine (map plainCell rs));
          reflexivity|].
  cbn [QueuedScrollbackOutput]. unfold endScrollback.
  cbn [lines positionX positionY QueuedScrollbackOutput currentScreenHeight
       fold_left].
  unfold lengthWithoutTrailingSpacesAndEmptyRunes. cbn [characters].
  rewrite withoutTrailingDefault_plain by exact Hlast.
  rewrite sub_diag.
  replace (GoInt.sub (GoInt.sub (len [mkLine (map plainCell rs)]) 0) 1)
    with 0 by reflexivity.
  unfold emitLine. cbn [characters].
  rewrite emitCells_plain, anySGRSet_plain.
  change (moveBytes 0 "C" "D") with (@nil ascii).
  change (moveBytes 0 "B" "A") with (@nil ascii).
  change (0 <? len (@nil ascii)) with false. cbn iota.
  now rewrite !app_nil_r.
Qed.

Lemma replay_preserves_a_line_of_printable_text_witness :
  exists s s',
    AdvanceRunes [104; 233; 8364; 128512; 32; 33] (NewScreen 80 24) = Ok s
    /\ End s = Ok s'
    /\ QueuedScrollbackOutput s' = encodeRunes [104; 233; 8364; 128512; 32; 33].
Proof.
  apply (replay_preserves_a_line_of_printable_text 80 24
           [104; 233; 8364; 128512; 32; 33]).
  - repeat constructor; unfold printableRune; lia.
  - simpl. lia.
  - vm_compute. reflexivity.
Defined.

(** ** delete_left *)

Lemma nth_error_updateNth_same {A : Type} (f : A -> A) (l : list A) :
  forall n a, nth_error l n = Some a ->
              nth_error (updateNth n f l) n = Some (f a).
Proof.
  induction l as [|b l IH]; intros n a; destruct n; simpl; try discriminate.
  - now intros [= ->].
  - apply IH.
Qed.




(** What a call that reaches the cell of the cursor returns. *)
Lemma withCurrentCharacter_Ok_lines (f : Character -> Character)
    (s s' : Screen) :
  withCurrentCharacter f s = Ok s' ->
  exists l,
    nth_error (lines s) (Z.to_nat (positionY s)) = Some l
    /\ 0 <= positionY s
    /\ 0 <= positionX s < GoInt.maxInt
    /\ s' = setLines
              (updateNth (Z.to_nat (positionY s))
                 (fun _ => mkLine (updateNth (Z.to_nat (positionX s)) f
                                     (extendTo (positionX s) (characters l))))
                 (lines s))
              s.
Proof.
  unfold withCurrentCharacter, currentLine, lineAt. intros H.
  destruct (Z.ltb_spec (positionY s) 0); [discriminate|].
  destruct (nth_error (lines s) (Z.to_nat (positionY s))) as [l|] eqn:El;
    [|discriminate].
  simpl in H. apply bind_Ok_inv in H as (l' & Hc & H).
  pose proof (characterAt_Ok_inv _ _ _ _ Hc) as Hx.
  unfold characterAt in Hc.
  destruct (positionX s <? 0); [discriminate|].
  destruct (GoInt.maxInt <=? positionX s); [discriminate|].
  inversion Hc; subst l'. inversion H; subst s'.
  exists l. repeat split; try lia.
Qed.



Lemma rune_fold_addSGR (l : SGRList) (c : Character) :
  rune (fold_left (fun acc a => addSGR a acc) l c) = rune c.
Proof.
  revert c. induction l as [|a l IH]; intros c; simpl; [reflexivity|].
  now rewrite IH.
Qed.

Lemma rune_writeCharacter (r : Z) (current : option SGRList) (c : Character) :
  rune (writeCharacter r current c) = r.
Proof.
  unfold writeCharacter. destruct current as [l|]; [|reflexivity].
  now rewrite rune_fold_addSGR.
Qed.











(** ** The exit code of the scheduler *)

Module SchedulerFacts.
Import Scheduler.

Lemma fold_max_lower (codes : list Z) (e0 : Z) :
  e0 <= fold_left Z.max codes e0.
Proof.
  revert e0. induction codes as [|c codes IH]; intros e0; simpl; [lia|].
  specialize (IH (Z.max e0 c)). lia.
Qed.

Lemma fold_max_upper (codes : list Z) (e0 c : Z) :
  In c codes -> c <= fold_left Z.max codes e0.
Proof.
  revert e0. induction codes as [|d codes IH]; intros e0; simpl; [tauto|].
  intros [->|H]; [|now apply IH].
  pose proof (fold_max_lower codes (Z.max e0 c)). lia.
Qed.

Lemma fold_max_attained (codes : list Z) (e0 : Z) :
  fold_left Z.max codes e0 = e0 \/ In (fold_left Z.max codes e0) codes.
Proof.
  revert e0. induction codes as [|c codes IH]; intros e0; simpl; [now left|].
  destruct (IH (Z.max e0 c)) as [E|HIn]; [|now right; right].
  rewrite E. destruct (Z.max_spec e0 c) as [[_ ->]|[_ ->]]; auto.
Qed.

(** The loop promotes a prefix of the queue, stops before the end only
    after a failure with keep-going off, and leaves in [exitCode] the
    maximum of its initial value and of the statuses of the prefix. *)
Lemma promote_prefix (keepGoingOnError : bool) (processes : list waitOutcome) :
  forall exitCode e,
    promote keepGoingOnError processes exitCode = Ok e ->
    exists promoted remaining codes,
      processes = promoted ++ remaining
      /\ map toForeground promoted = map Ok codes
      /\ e = fold_left Z.max codes exitCode
      /\ (remaining = [] \/ (keepGoingOnError = false /\ e <> 0)).
Proof.
  induction processes as [|p rest IH]; simpl; intros exitCode e H.
  - inversion H; subst. exists [], [], []. simpl. auto.
  - apply bind_Ok_inv in H as (c & Hc & H).
    destruct (negb keepGoingOnError && negb (Z.max exitCode c =? 0)) eqn:Stop.
    + inversion H; subst e. exists [p], rest, [c]. simpl. rewrite Hc.
      repeat split. right.
      apply andb_true_iff in Stop as [K N].
      apply negb_true_iff in K, N. apply Z.eqb_neq in N. auto.
    + apply IH in H as (promoted & remaining & codes & -> & Hm & -> & Hr).
      exists (p :: promoted), remaining, (c :: codes). simpl.
      rewrite Hc, Hm. auto.
Qed.

(** After one more promotion the exit code is the maximum of the exit code
    before it and of the status of the child; with keep-going off, a child
    that comes after a failure is not promoted. *)
Lemma start_after_one_more (keepGoingOnError : bool)
    (processes : list waitOutcome) (p : waitOutcome) :
  start keepGoingOnError (processes ++ [p])
  = (prior <- start keepGoingOnError processes ;;
     if negb keepGoingOnError && negb (prior =? 0) then Ok prior
     else (code <- toForeground p ;; Ok (Z.max prior code))).
Proof.
  unfold start.
  assert (forall e0, (keepGoingOnError = true \/ e0 = 0) ->
            promote keepGoingOnError (processes ++ [p]) e0
            = (prior <- promote keepGoingOnError processes e0 ;;
               if negb keepGoingOnError && negb (prior =? 0) then Ok prior
               else (code <- toForeground p ;; Ok (Z.max prior code)))) as G.
  { induction processes as [|q rest IH]; intros e0 H0; simpl.
    - destruct H0 as [->| ->]; simpl.
      + now destruct (toForeground p).
      + rewrite andb_false_r.
        destruct (toForeground p) as [c|]; simpl; [|reflexivity].
        now destruct (negb keepGoingOnError && negb (Z.max 0 c =? 0)).
    - destruct (toForeground q) as [c|]; simpl; [|reflexivity].
      destruct (negb keepGoingOnError && negb (Z.max e0 c =? 0)) eqn:Stop.
      + simpl. now rewrite Stop.
      + apply IH. apply andb_false_iff in Stop as [K|N].
        * left. now apply negb_false_iff in K.
        * right. apply negb_false_iff in N. now apply Z.eqb_eq in N. }
  apply G. now right.
Qed.

(** The claim C9 as the specification states it fails for a child that a
    signal has killed: its [ExitCode()] is -1, the only status promoted, so
    the maximum of the statuses is -1, and [start] returns 0, the value
    that [exitCode] starts from. *)
Lemma exit_code_of_a_killed_child_is_zero :
  start true [WaitExitError (-1)] = Ok 0
  /\ start false [WaitExitError (-1)] = Ok 0
  /\ map toForeground [WaitExitError (-1)] = map Ok [-1]
  /\ maximumStatus [-1] = Some (-1)
  /\ rmap Some (start true [WaitExitError (-1)]) <> Ok (maximumStatus [-1]).
Proof.
  repeat split. discriminate.
Qed.

(** C9, amended. The exit code of [start] is the maximum of 0 and of the
    exit statuses of the children it has promoted: the promoted children
    are a prefix of the queue (all of it, unless keep-going is off and the
    exit code is not 0), the exit code is the fold of [max] over their
    statuses from 0, that is, after each promotion the maximum of the exit
    code before it and of the status of the child; no status exceeds it,
    it is 0 or one of the statuses, and it is never negative. *)
Theorem exit_code_is_max_of_promoted (keepGoingOnError : bool)
    (processes : list waitOutcome) (e : Z) :
  start keepGoingOnError processes = Ok e ->
  exists promoted remaining codes,
    processes = promoted ++ remaining
    /\ map toForeground promoted = map Ok codes
    /\ (remaining = [] \/ (keepGoingOnError = false /\ e <> 0))
    /\ e = fold_left Z.max codes 0
    /\ (forall c, In c codes -> c <= e)
    /\ (e = 0 \/ In e codes)
    /\ 0 <= e.
Proof.
  intros H. apply promote_prefix in H
    as (promoted & remaining & codes & Hp & Hm & He & Hr).
  exists promoted, remaining, codes. repeat split; auto.
  - intros c Hc. subst e. now apply fold_max_upper.
  - subst e. apply fold_max_attained.
  - subst e. apply fold_max_lower.
Qed.

Lemma exit_code_is_max_of_promoted_witness :
  start true [WaitNil; WaitExitError 3; WaitExitError 1] = Ok 3
  /\ exists promoted remaining codes,
       [WaitNil; WaitExitError 3; WaitExitError 1] = promoted ++ remaining
       /\ map toForeground promoted = map Ok codes
       /\ (remaining = [] \/ (true = false /\ 3 <> 0))
       /\ 3 = fold_left Z.max codes 0
       /\ (forall c, In c codes -> c <= 3)
       /\ (3 = 0 \/ In 3 codes)
       /\ 0 <= 3.
Proof.
  split; [reflexivity|].
  exact (exit_code_is_max_of_promoted true
           [WaitNil; WaitExitError 3; WaitExitError 1] 3 eq_refl).
Defined.

End SchedulerFacts.

(** * More properties of the screen *)

(** ** The scrollback only grows *)

Lemma emitLine_extends (q : bytes) (line : Line) :
  exists suffix, emitLine q line = q ++ suffix.
Proof. unfold emitLine. eauto. Qed.

Lemma fold_emitLine_extends (ls : list Line) :
  forall q, exists suffix, fold_left emitLine ls q = q ++ suffix.
Proof.
  induction ls as [|l ls IH]; intros q; simpl.
  - exists []. now rewrite app_nil_r.
  - destruct (emitLine_extends q l) as (u & ->).
    destruct (IH (q ++ u)) as (v & ->).
    exists (u ++ v). now rewrite app_assoc.
Qed.

Lemma extendsQueue_refl (s s' : Screen) :
  QueuedScrollbackOutput s' = QueuedScrollbackOutput s -> extendsQueue s s'.
Proof. intros H. exists []. now rewrite app_nil_r. Qed.

Lemma extendsQueue_trans (s1 s2 s3 : Screen) :
  extendsQueue s1 s2 -> extendsQueue s2 s3 -> extendsQueue s1 s3.
Proof.
  intros (u & Hu) (v & Hv). exists (u ++ v). now rewrite Hv, Hu, app_assoc.
Qed.

Lemma nextLine_extendsQueue (s s' : Screen) :
  nextLine s = Ok s' -> extendsQueue s s'.
Proof.
  unfold nextLine.
  destruct (positionY s <? GoInt.sub (currentScreenHeight s) 1);
    cbn [maxHeight lines setPositionY setLines];
    match goal with |- context [if ?c then _ else _] => destruct c end;
    try (intros [= <-]; now apply extendsQueue_refl);
    match goal with |- context [match ?l with [] => _ | _ => _ end] =>
      destruct l end;
    try discriminate; intros [= <-];
    rewrite sendLineToScrollbackBuffer_emitLine;
    apply emitLine_extends.
Qed.

Lemma repeatM_extendsQueue (f : Screen -> result Screen) :
  (forall a a', f a = Ok a' -> extendsQueue a a') ->
  forall n s s', repeatM n f s = Ok s' -> extendsQueue s s'.
Proof.
  intros Hf. induction n as [|n IH]; simpl; intros s s' H.
  - inversion H; subst. now apply extendsQueue_refl.
  - apply bind_Ok_inv in H as (s1 & H1 & H).
    eapply extendsQueue_trans; eauto.
Qed.

Lemma withCurrentCharacter_queue (f : Character -> Character) (s s' : Screen) :
  withCurrentCharacter f s = Ok s' ->
  QueuedScrollbackOutput s' = QueuedScrollbackOutput s
  /\ len (lines s') = len (lines s).
Proof.
  intros H. apply withCurrentCharacter_Ok_inv in H. tauto.
Qed.

Lemma deleteLeftLoop_queue (n : nat) :
  forall s s',
    deleteLeftLoop n s = Ok s' ->
    QueuedScrollbackOutput s' = QueuedScrollbackOutput s
    /\ len (lines s') = len (lines s).
Proof.
  induction n as [|n IH]; simpl; intros s s' H.
  - now inversion H; subst.
  - apply bind_Ok_inv in H as (s2 & H2 & H).
    apply withCurrentCharacter_queue in H2 as (HQ & HL).
    assert (QueuedScrollbackOutput (prevCharacter s) = QueuedScrollbackOutput s
            /\ lines (prevCharacter s) = lines s) as (HQ0 & HL0).
    { unfold prevCharacter.
      now destruct (positionX (setPositionX _ s) <? 0). }
    rewrite HQ0 in HQ. rewrite HL0 in HL.
    destruct (positionX s2 =? 0).
    + inversion H; subst. now split.
    + apply IH in H as (HQ' & HL'). split; congruence.
Qed.

Lemma outRelativeMoveCursorVertical_extendsQueue (n : Z) (s s' : Screen) :
  outRelativeMoveCursorVertical n s = Ok s' -> extendsQueue s s'.
Proof.
  unfold outRelativeMoveCursorVertical. intros H.
  apply bind_Ok_inv in H as (s1 & H1 & H).
  apply (repeatM_extendsQueue _ nextLine_extendsQueue) in H1.
  eapply extendsQueue_trans; [exact H1|].
  apply (repeatM_extendsQueue (fun a => Ok (prevLine a))) in H; [exact H|].
  intros a a' [= <-]. apply extendsQueue_refl. unfold prevLine.
  now destruct (positionY a <=? 0).
Qed.

Lemma applyOp_extendsQueue (op : ScreenOp) (s s' : Screen) :
  applyOp op s = Ok s' -> extendsQueue s s'.
Proof.
  destruct op; simpl; intros H; try (injection H as <-).
  - unfold outNormalCharacter in H.
    apply bind_Ok_inv in H as (s1 & H1 & [= <-]).
    apply withCurrentCharacter_queue in H1 as (HQ & _).
    now apply extendsQueue_refl.
  - now apply nextLine_extendsQueue.
  - apply extendsQueue_refl. unfold prevLine.
    now destruct (positionY s <=? 0).
  - apply extendsQueue_refl. unfold prevCharacter.
    now destruct (positionX (setPositionX _ s) <? 0).
  - now apply outRelativeMoveCursorVertical_extendsQueue in H.
  - apply extendsQueue_refl. unfold outRelativeMoveCursorHorizontal.
    now destruct (positionX (setPositionX _ s) <? 0).
  - now apply outRelativeMoveCursorVertical_extendsQueue in H.
  - apply extendsQueue_refl. unfold outAbsoluteMoveCursorHorizontal.
    now destruct (positionX (setPositionX _ s) <? 0).
  - apply deleteLeftLoop_queue in H as (HQ & _). now apply extendsQueue_refl.
  - apply withCurrentCharacter_queue in H as (HQ & _).
    now apply extendsQueue_refl.
  - apply extendsQueue_refl. unfold outSelectGraphicRenditionAttribute.
    now destruct (SGR.isUnsetAll a).
Qed.

Lemma runOps_extendsQueue (ops : list ScreenOp) :
  forall s s', runOps ops s = Ok s' -> extendsQueue s s'.
Proof.
  induction ops as [|op ops IH]; simpl; intros s s' H.
  - inversion H; subst. now apply extendsQueue_refl.
  - apply bind_Ok_inv in H as (s1 & H1 & H).
    eapply extendsQueue_trans; [eapply applyOp_extendsQueue|]; eauto.
Qed.

Lemma End_extendsQueue (s s' : Screen) : End s = Ok s' -> extendsQueue s s'.
Proof.
  unfold End. destruct (Ended s); [discriminate|].
  rewrite fold_sendLine. intros H.
  apply bind_Ok_inv in H as (line & _ & [= <-]).
  rewrite !appendMove_moveBytes.
  unfold extendsQueue, appendToScrollback. cbn.
  destruct (fold_emitLine_extends (lines s) (QueuedScrollbackOutput s))
    as (u & ->).
  eexists. rewrite <- !app_assoc. reflexivity.
Qed.

(** X1. The scrollback is append-only: whatever the operations, and at
    [End], the queued scrollback of the screen is the one it had before with
    bytes added at its end.  Bytes that are queued are never rewritten. *)
Theorem scrollback_is_append_only
    (ops : list ScreenOp) (s s1 s2 : Screen) :
  runOps ops s = Ok s1 ->
  End s1 = Ok s2 ->
  (exists added,
     QueuedScrollbackOutput s1 = QueuedScrollbackOutput s ++ added)
  /\ (exists added,
        QueuedScrollbackOutput s2 = QueuedScrollbackOutput s1 ++ added).
Proof.
  intros H1 H2. split.
  - exact (runOps_extendsQueue ops s s1 H1).
  - exact (End_extendsQueue s1 s2 H2).
Qed.

Lemma scrollback_is_append_only_witness :
  exists s1 s2,
    runOps [OpNormalCharacter 97; OpNextLine; OpNormalCharacter 98]
           (NewScreen 80 1) = Ok s1
    /\ End s1 = Ok s2
    /\ (exists added,
          QueuedScrollbackOutput s1
          = QueuedScrollbackOutput (NewScreen 80 1) ++ added)
    /\ (exists added,
          QueuedScrollbackOutput s2 = QueuedScrollbackOutput s1 ++ added).
Proof.
  eexists; eexists. split; [vm_compute; reflexivity|].
  split; [vm_compute; reflexivity|].
  apply (scrollback_is_append_only
           [OpNormalCharacter 97; OpNextLine; OpNormalCharacter 98]
           (NewScreen 80 1)); vm_compute; reflexivity.
Defined.

(** ** What does not scroll *)

Lemma applyOp_no_scroll (op : ScreenOp) (s s' : Screen) :
  canScroll op = false ->
  applyOp op s = Ok s' ->
  QueuedScrollbackOutput s' = QueuedScrollbackOutput s
  /\ len (lines s') = len (lines s).
Proof.
  destruct op; simpl; intros Hc H; try discriminate;
    try (injection H as <-).
  - unfold outNormalCharacter in H.
    apply bind_Ok_inv in H as (s1 & H1 & [= <-]).
    now apply withCurrentCharacter_queue in H1.
  - unfold prevLine. now destruct (positionY s <=? 0).
  - unfold prevCharacter. now destruct (positionX (setPositionX _ s) <? 0).
  - unfold outRelativeMoveCursorHorizontal.
    now destruct (positionX (setPositionX _ s) <? 0).
  - unfold outAbsoluteMoveCursorHorizontal.
    now destruct (positionX (setPositionX _ s) <? 0).
  - now apply deleteLeftLoop_queue in H.
  - now apply withCurrentCharacter_queue in H.
  - unfold outSelectGraphicRenditionAttribute.
    now destruct (SGR.isUnsetAll a).
Qed.

(** X2. Only a line feed or a vertical move can emit scrollback: a sequence
    of operations with none of them (characters, horizontal moves, cursor
    up, erasures to the left, SGR selections, unhandled sequences) leaves
    the queued scrollback and the number of lines as they were. *)
Theorem only_line_feeds_scroll (ops : list ScreenOp) (s s' : Screen) :
  Forall (fun op => canScroll op = false) ops ->
  runOps ops s = Ok s' ->
  QueuedScrollbackOutput s' = QueuedScrollbackOutput s
  /\ len (lines s') = len (lines s).
Proof.
  revert s. induction ops as [|op ops IH]; simpl; intros s HF H.
  - now inversion H; subst.
  - inversion HF as [|? ? Hop HF']; subst.
    apply bind_Ok_inv in H as (s1 & H1 & H).
    apply (applyOp_no_scroll op s s1 Hop) in H1 as (HQ & HL).
    apply (IH s1 HF') in H as (HQ' & HL'). split; congruence.
Qed.

Lemma only_line_feeds_scroll_witness :
  exists s',
    runOps [OpNormalCharacter 97; OpDeleteLeft 1; OpPrevLine;
            OpSelectGraphicRenditionAttribute (SGRPrimitive 1);
            OpUnhandledEscapeSequence (str "x");
            OpRelativeMoveCursorHorizontal 4]
           (NewScreen 80 24) = Ok s'
    /\ QueuedScrollbackOutput s' = QueuedScrollbackOutput (NewScreen 80 24)
    /\ len (lines s') = len (lines (NewScreen 80 24)).
Proof.
  eexists. split; [vm_compute; reflexivity|].
  apply (only_line_feeds_scroll
           [OpNormalCharacter 97; OpDeleteLeft 1; OpPrevLine;
            OpSelectGraphicRenditionAttribute (SGRPrimitive 1);
            OpUnhandledEscapeSequence (str "x");
            OpRelativeMoveCursorHorizontal 4]).
  - repeat constructor.
  - vm_compute. reflexivity.
Defined.

(** ** The three cases of nextLine *)

Lemma nextLine_cases (s : Screen) :
  ScreenOK s ->
  (positionY s < len (lines s) - 1 ->
   nextLine s = Ok (setPositionY (positionY s + 1) s))
  /\ (positionY s = len (lines s) - 1 ->
      len (lines s) < maxHeight s ->
      nextLine s = Ok (setLines (lines s ++ [NewLine]) s))
  /\ (positionY s = len (lines s) - 1 ->
      len (lines s) = maxHeight s ->
      exists first rest,
        lines s = first :: rest
        /\ nextLine s
           = Ok (mkScreen (rest ++ [NewLine]) (desiredWidth s) (maxHeight s)
                   (positionX s) (positionY s) (Ended s)
                   (emitLine (QueuedScrollbackOutput s) first)
                   (currentSGRs s))).
Proof.
  intros [[] Hm]. unfold nextLine, currentScreenHeight.
  rewrite sub_inRange by int_range.
  destruct (Z.ltb_spec (positionY s) (len (lines s) - 1)) as [Hlt|Hge].
  - rewrite add_inRange by int_range.
    cbn [maxHeight lines setPositionY].
    destruct (Z.ltb_spec (maxHeight s) (len (lines s))) as [Hgt|Hle]; [lia|].
    split; [reflexivity|]. split; intros; lia.
  - cbn [maxHeight lines setLines]. rewrite len_app.
    change (len [NewLine]) with 1.
    split; [intros; lia|].
    destruct (Z.ltb_spec (maxHeight s) (len (lines s) + 1)) as [Hgt|Hle].
    + split; [intros; lia|]. intros _ _.
      destruct (lines s) as [|first rest] eqn:El.
      * unfold len in *. simpl in *. lia.
      * exists first, rest. split; [reflexivity|].
        cbn [app]. rewrite sendLineToScrollbackBuffer_emitLine. reflexivity.
    + split; [reflexivity | intros; lia].
Qed.

(** ** The height of the screen *)

Lemma nextLine_height (s s' : Screen) :
  ScreenOK s -> nextLine s = Ok s' -> len (lines s) <= len (lines s').
Proof.
  intros HI H. destruct (nextLine_cases s HI) as (C1 & C2 & C3).
  destruct HI as [[] _].
  destruct (Z.lt_ge_cases (positionY s) (len (lines s) - 1)) as [L|G].
  - rewrite (C1 L) in H. injection H as <-. cbn [lines setPositionY]. lia.
  - destruct (Z.lt_ge_cases (len (lines s)) (maxHeight s)) as [R|F].
    + rewrite (C2 ltac:(lia) R) in H. injection H as <-.
      cbn [lines setLines]. rewrite len_app. change (len [NewLine]) with 1.
      lia.
    + destruct (C3 ltac:(lia) ltac:(lia)) as (first & rest & E & H').
      rewrite H' in H. injection H as <-. cbn [lines]. rewrite E.
      rewrite len_app, len_cons. change (len [NewLine]) with 1. lia.
Qed.

Lemma repeatM_height (f : Screen -> result Screen) :
  (forall a a', ScreenOK a -> f a = Ok a' -> len (lines a) <= len (lines a')) ->
  (forall a a', ScreenOK a -> f a = Ok a' -> ScreenOK a') ->
  forall n s s', ScreenOK s -> repeatM n f s = Ok s' ->
                 len (lines s) <= len (lines s').
Proof.
  intros Hf Hp. induction n as [|n IH]; simpl; intros s s' HI H.
  - inversion H; subst. lia.
  - apply bind_Ok_inv in H as (s1 & H1 & H).
    pose proof (Hf _ _ HI H1). pose proof (IH _ _ (Hp _ _ HI H1) H). lia.
Qed.

Lemma outRelativeMoveCursorVertical_height (n : Z) (s s' : Screen) :
  ScreenOK s -> outRelativeMoveCursorVertical n s = Ok s' ->
  len (lines s) <= len (lines s').
Proof.
  intros HI H. unfold outRelativeMoveCursorVertical in H.
  apply bind_Ok_inv in H as (s1 & H1 & H).
  pose proof (repeatM_invariant ScreenOK nextLine nextLine_preserves
                _ _ _ HI H1) as HI1.
  apply (repeatM_height nextLine nextLine_height nextLine_preserves) in H1;
    [|exact HI].
  apply (repeatM_height (fun a => Ok (prevLine a))) in H; [lia| | |exact HI1].
  - intros a a' _ [= <-]. unfold prevLine.
    destruct (positionY a <=? 0); cbn [lines setPositionY]; lia.
  - intros a a' Ha [= <-]. now apply prevLine_preserves.
Qed.

Lemma applyOp_height (op : ScreenOp) (s s' : Screen) :
  ScreenOK s -> applyOp op s = Ok s' -> len (lines s) <= len (lines s').
Proof.
  intros HI H. destruct (canScroll op) eqn:Hc.
  - destruct op; try discriminate; simpl in H.
    + now apply nextLine_height.
    + now apply outRelativeMoveCursorVertical_height in H.
    + now apply outRelativeMoveCursorVertical_height in H.
  - apply (applyOp_no_scroll op s s' Hc) in H as (_ & HL). lia.
Qed.

(** X3. The screen never loses a line before [End]: through any sequence
    of operations the number of lines does not decrease, and a screen that
    has [maxHeight] lines keeps exactly that many. *)
Theorem height_never_decreases (ops : list ScreenOp) (s s' : Screen) :
  ScreenOK s ->
  runOps ops s = Ok s' ->
  len (lines s) <= len (lines s')
  /\ (len (lines s) = maxHeight s -> len (lines s') = maxHeight s').
Proof.
  intros HI H.
  assert (len (lines s) <= len (lines s')) as Hle.
  { revert s HI H. induction ops as [|op ops IH]; simpl; intros s HI H.
    - inversion H; subst. lia.
    - apply bind_Ok_inv in H as (s1 & H1 & H).
      pose proof (applyOp_height op s s1 HI H1).
      pose proof (IH s1 (applyOp_preserves op s s1 HI H1) H). lia. }
  split; [exact Hle|]. intros Hfull.
  pose proof (runOps_preserves ops s s' HI H) as [[] _].
  pose proof (runOps_fixedFields ops s s' H) as HF.
  injection HF as _ Hmh _. lia.
Qed.

Lemma height_never_decreases_witness :
  exists s',
    runOps [OpNextLine; OpNormalCharacter 97; OpNextLine; OpNextLine;
            OpRelativeMoveCursorVertical (-2); OpAbsoluteMoveCursorVertical 5]
           (NewScreen 80 2) = Ok s'
    /\ len (lines (NewScreen 80 2)) <= len (lines s')
    /\ (len (lines (NewScreen 80 2)) = maxHeight (NewScreen 80 2) ->
        len (lines s') = maxHeight s').
Proof.
  eexists. split; [vm_compute; reflexivity|].
  apply (height_never_decreases
           [OpNextLine; OpNormalCharacter 97; OpNextLine; OpNextLine;
            OpRelativeMoveCursorVertical (-2); OpAbsoluteMoveCursorVertical 5]).
  - apply NewScreen_OK. int_range.
  - vm_compute. reflexivity.
Defined.

(** ** Vertical moves inside the screen *)

Lemma setPositionY_same (s : Screen) : setPositionY (positionY s) s = s.
Proof. now destruct s. Qed.

Lemma setPositionY_twice (a b : Z) (s : Screen) :
  setPositionY a (setPositionY b s) = setPositionY a s.
Proof. reflexivity. Qed.

Lemma ScreenOK_setPositionY (y : Z) (s : Screen) :
  ScreenOK s -> 0 <= y < len (lines s) -> ScreenOK (setPositionY y s).
Proof.
  intros [[] Hm] Hy. split; [constructor|]; cbn [lines maxHeight positionX
    positionY setPositionY]; lia.
Qed.

Lemma repeatM_nextLine_inside (n : nat) :
  forall s,
    ScreenOK s ->
    positionY s + Z.of_nat n < len (lines s) ->
    repeatM n nextLine s = Ok (setPositionY (positionY s + Z.of_nat n) s).
Proof.
  induction n as [|n IH]; intros s HI Hy.
  - cbn [repeatM]. now rewrite Z.add_0_r, setPositionY_same.
  - cbn [repeatM].
    destruct (nextLine_cases s HI) as (C1 & _).
    rewrite (C1 ltac:(lia)). cbn [bind].
    pose proof HI as [[] _].
    rewrite IH.
    + cbn [positionY setPositionY]. rewrite setPositionY_twice.
      f_equal. f_equal. lia.
    + apply ScreenOK_setPositionY; [exact HI | lia].
    + cbn [positionY lines setPositionY]. lia.
Qed.

Lemma repeatM_prevLine (n : nat) :
  forall s,
    0 <= positionY s <= GoInt.maxInt ->
    repeatM n (fun a => Ok (prevLine a)) s
    = Ok (setPositionY (Z.max 0 (positionY s - Z.of_nat n)) s).
Proof.
  induction n as [|n IH]; intros s Hy.
  - cbn [repeatM]. rewrite Z.sub_0_r, Z.max_r by lia.
    now rewrite setPositionY_same.
  - cbn [repeatM bind]. unfold prevLine at 2.
    destruct (Z.leb_spec (positionY s) 0) as [Hz|Hp].
    + rewrite IH by exact Hy. f_equal. f_equal. lia.
    + rewrite sub_inRange by int_range.
      rewrite IH by (cbn [positionY setPositionY]; unfold GoInt.maxInt in *; lia).
      cbn [positionY setPositionY]. rewrite setPositionY_twice.
      f_equal. f_equal. lia.
Qed.

Lemma outRelativeMoveCursorVertical_inside (n : Z) (s : Screen) :
  ScreenOK s ->
  positionY s + n < len (lines s) ->
  outRelativeMoveCursorVertical n s
  = Ok (setPositionY (Z.max 0 (positionY s + n)) s).
Proof.
  intros HI Hy. pose proof HI as [[] Hm].
  unfold outRelativeMoveCursorVertical.
  destruct (Z.le_gt_cases 0 n) as [Hn|Hn].
  - rewrite repeatM_nextLine_inside by (try exact HI; lia).
    cbn [bind]. replace (Z.to_nat (- n)) with 0%nat by lia.
    cbn [repeatM]. f_equal. f_equal. lia.
  - replace (Z.to_nat n) with 0%nat by lia. cbn [repeatM bind].
    rewrite repeatM_prevLine by (unfold GoInt.maxInt in *; lia).
    f_equal. f_equal. lia.
Qed.

(** X4. A relative vertical move that ends on a line of the screen puts
    the cursor on that line and changes nothing else: [n] lines down when
    that line exists, [-n] lines up and not above the first line.  No line
    is added and nothing is emitted. *)
Theorem vertical_move_inside_the_screen (n : Z) (s : Screen) :
  ScreenOK s ->
  positionY s + n < len (lines s) ->
  outRelativeMoveCursorVertical n s
  = Ok (setPositionY (Z.max 0 (positionY s + n)) s).
Proof. exact (outRelativeMoveCursorVertical_inside n s). Qed.

Lemma vertical_move_inside_the_screen_witness :
  exists s,
    runOps [OpNextLine; OpNextLine; OpNextLine] (NewScreen 80 24) = Ok s
    /\ positionY s = 1
    /\ outRelativeMoveCursorVertical (-5) s = Ok (setPositionY 0 s).
Proof.
  eexists. split; [vm_compute; reflexivity|]. split; [reflexivity|].
  apply (vertical_move_inside_the_screen (-5)).
  - apply (runOps_preserves [OpNextLine; OpNextLine; OpNextLine]
             (NewScreen 80 24)); [apply NewScreen_OK; int_range|].
    vm_compute. reflexivity.
  - vm_compute. reflexivity.
Defined.

(** X5. An absolute vertical move to a row of the screen puts the cursor
    on that row, and a move to a negative row puts it on the first line;
    nothing else changes.  The row must not be so negative that its
    distance to the cursor overflows [int]. *)
Theorem absolute_vertical_move_inside_the_screen (targetY : Z) (s : Screen) :
  ScreenOK s ->
  GoInt.minInt + positionY s <= targetY < len (lines s) ->
  outAbsoluteMoveCursorVertical targetY s
  = Ok (setPositionY (Z.max 0 targetY) s).
Proof.
  intros HI Hy. pose proof HI as [[] Hm].
  unfold outAbsoluteMoveCursorVertical.
  rewrite sub_inRange by int_range.
  rewrite outRelativeMoveCursorVertical_inside by (try exact HI; lia).
  f_equal. f_equal. lia.
Qed.

Lemma absolute_vertical_move_inside_the_screen_witness :
  exists s,
    runOps [OpNextLine; OpNextLine; OpNextLine; OpNextLine; OpNextLine]
           (NewScreen 80 24) = Ok s
    /\ positionY s = 2 /\ len (lines s) = 4
    /\ outAbsoluteMoveCursorVertical 3 s = Ok (setPositionY 3 s)
    /\ outAbsoluteMoveCursorVertical (-1) s = Ok (setPositionY 0 s).
Proof.
  eexists. split; [vm_compute; reflexivity|].
  split; [reflexivity|]. split; [reflexivity|].
  assert (ScreenOK
            (mkScreen [NewLine; NewLine; NewLine; NewLine] 80 24 0 2 false []
                      None)) as HI.
  { apply (runOps_preserves
             [OpNextLine; OpNextLine; OpNextLine; OpNextLine; OpNextLine]
             (NewScreen 80 24)); [apply NewScreen_OK; int_range|].
    vm_compute. reflexivity. }
  split.
  - apply (absolute_vertical_move_inside_the_screen 3 _ HI).
    unfold GoInt.minInt, len. simpl. lia.
  - apply (absolute_vertical_move_inside_the_screen (-1) _ HI).
    unfold GoInt.minInt, len. simpl. lia.
Defined.

(** ** Horizontal moves *)

Lemma wrap_overflow (z : Z) :
  GoInt.maxInt < z <= 2 * GoInt.maxInt ->
  GoInt.wrap z = z - 18446744073709551616.
Proof.
  unfold GoInt.maxInt, GoInt.wrap. intros H.
  Z.div_mod_to_equations. lia.
Qed.

(** X13. A relative horizontal move by [n] from column [x] puts the cursor
    in column [max 0 (x + n)] and changes nothing else, except when [x + n]
    is past the largest [int]: the sum wraps to a negative number and the
    cursor lands in column 0.  An absolute move to column [t] puts it in
    column [max 0 t]. *)
Theorem horizontal_moves_saturate_at_zero (n t : Z) (s : Screen) :
  0 <= positionX s <= GoInt.maxInt ->
  GoInt.inRange n ->
  outRelativeMoveCursorHorizontal n s
  = setPositionX (if GoInt.maxInt <? positionX s + n then 0
                  else Z.max 0 (positionX s + n)) s
  /\ outAbsoluteMoveCursorHorizontal t s = setPositionX (Z.max 0 t) s.
Proof.
  intros Hx Hn. split.
  - unfold outRelativeMoveCursorHorizontal, GoInt.add.
    destruct (Z.ltb_spec GoInt.maxInt (positionX s + n)) as [Hov|Hok].
    + rewrite wrap_overflow by int_range. cbn [positionX setPositionX].
      destruct (Z.ltb_spec (positionX s + n - 18446744073709551616) 0);
        [reflexivity | int_range].
    + rewrite wrap_inRange by int_range. cbn [positionX setPositionX].
      destruct (Z.ltb_spec (positionX s + n) 0).
      * rewrite Z.max_l by lia. reflexivity.
      * rewrite Z.max_r by lia. reflexivity.
  - unfold outAbsoluteMoveCursorHorizontal. cbn [positionX setPositionX].
    destruct (Z.ltb_spec t 0).
    + rewrite Z.max_l by lia. reflexivity.
    + rewrite Z.max_r by lia. reflexivity.
Qed.

Lemma horizontal_moves_saturate_at_zero_witness :
  outRelativeMoveCursorHorizontal GoInt.maxInt (setPositionX 1 (NewScreen 80 24))
  = setPositionX 0 (setPositionX 1 (NewScreen 80 24))
  /\ outAbsoluteMoveCursorHorizontal (-3) (setPositionX 1 (NewScreen 80 24))
     = setPositionX 0 (setPositionX 1 (NewScreen 80 24)).
Proof.
  apply (horizontal_moves_saturate_at_zero GoInt.maxInt (-3)
           (setPositionX 1 (NewScreen 80 24))).
  - cbn. int_range.
  - int_range.
Defined.

(** ** After End *)

Lemma End_Ok_inv (s s' : Screen) :
  End s = Ok s' -> lines s' = [] /\ Ended s' = true /\ Ended s = false.
Proof.
  unfold End. destruct (Ended s); [discriminate|].
  intros H. apply bind_Ok_inv in H as (line & _ & [= <-]).
  rewrite fold_sendLine, !appendMove_moveBytes. repeat split.
Qed.

Lemma withCurrentCharacter_no_lines (f : Character -> Character) (s : Screen) :
  lines s = [] -> withCurrentCharacter f s = Panic IndexOutOfRange.
Proof.
  intros H. unfold withCurrentCharacter, currentLine, lineAt. rewrite H.
  destruct (positionY s <? 0); [reflexivity|].
  now destruct (Z.to_nat (positionY s)).
Qed.

(** X10. After [End] the screen has no line left, and everything that
    reaches for the cell of the cursor panics on the index: writing a
    character, attaching an unhandled sequence, erasing to the left.  A
    second [End] panics as well. *)
Theorem no_write_after_End
    (s s' : Screen) (r n : Z) (seq : bytes) :
  End s = Ok s' ->
  1 <= n ->
  outNormalCharacter r s' = Panic IndexOutOfRange
  /\ outUnhandledEscapeSequence seq s' = Panic IndexOutOfRange
  /\ outDeleteLeft n s' = Panic IndexOutOfRange
  /\ End s' = Panic EndCalledTwice.
Proof.
  intros H Hn. apply End_Ok_inv in H as (Hl & He & _).
  repeat split.
  - unfold outNormalCharacter, setCurrentCharacterTo.
    now rewrite withCurrentCharacter_no_lines.
  - now apply withCurrentCharacter_no_lines.
  - unfold outDeleteLeft.
    destruct (Z.to_nat n) as [|k] eqn:Ek; [lia|].
    cbn [deleteLeftLoop]. unfold setCurrentCharacterTo.
    rewrite withCurrentCharacter_no_lines; [reflexivity|].
    unfold prevCharacter.
    now destruct (positionX (setPositionX _ s') <? 0).
  - now apply End_when_Ended.
Qed.

Lemma no_write_after_End_witness :
  exists s',
    End (NewScreen 80 24) = Ok s'
    /\ outNormalCharacter 97 s' = Panic IndexOutOfRange
    /\ outUnhandledEscapeSequence (str "x") s' = Panic IndexOutOfRange
    /\ outDeleteLeft 1 s' = Panic IndexOutOfRange
    /\ End s' = Panic EndCalledTwice.
Proof.
  eexists. split; [vm_compute; reflexivity|].
  apply (no_write_after_End (NewScreen 80 24)); [vm_compute; reflexivity | lia].
Defined.

(** ** The cell that a write leaves *)

Lemma nth_error_or_default {A : Type} (l : list A) (n : nat) (d : A) :
  match nth_error l n with Some a => a | None => d end = nth n l d.
Proof.
  revert n. induction l as [|a l IH]; intros n; destruct n; simpl;
    try reflexivity.
  apply IH.
Qed.

Lemma nth_error_extendTo_cursor (x : Z) (cs : list Character) :
  0 <= x ->
  nth_error (extendTo x cs) (Z.to_nat x)
  = Some (nth (Z.to_nat x) cs defaultCharacter).
Proof.
  intros Hx. unfold extendTo.
  destruct (Nat.lt_ge_cases (Z.to_nat x) (Datatypes.length cs)) as [L|G].
  - rewrite nth_error_app1 by exact L. now apply nth_error_nth'.
  - rewrite nth_error_app2 by exact G. rewrite nth_overflow by exact G.
    apply nth_error_repeat. lia.
Qed.

(** A call that reaches the cell of the cursor leaves there what [f] makes
    of the cell that was there, or of a default cell. *)
Lemma withCurrentCharacter_cell (f : Character -> Character) (s s' : Screen) :
  withCurrentCharacter f s = Ok s' ->
  cellAt (positionY s) (positionX s) s'
  = Some (f (cellOrDefault (positionY s) (positionX s) s)).
Proof.
  intros H. apply withCurrentCharacter_Ok_lines in H
    as (l & Hl & Hy & Hx & ->).
  unfold cellOrDefault, cellAt. cbn [lines setLines].
  destruct (Z.ltb_spec (positionY s) 0); [lia|].
  destruct (Z.ltb_spec (positionX s) 0); [lia|]. cbn [orb].
  rewrite (nth_error_updateNth_same _ _ _ _ Hl). cbn [characters].
  rewrite Hl, nth_error_or_default.
  apply nth_error_updateNth_same, nth_error_extendTo_cursor. lia.
Qed.

Lemma sgr_fold_addSGR (l : SGRList) (c : Character) :
  sgr (fold_left (fun acc a => addSGR a acc) l c)
  = fold_left (fun acc a => SGR.addToSGRAttributeList a acc) l (sgr c).
Proof.
  revert c. induction l as [|a l IH]; intros c; simpl; [reflexivity|].
  now rewrite IH.
Qed.

Lemma extra_fold_addSGR (l : SGRList) (c : Character) :
  extraEscapeSequences (fold_left (fun acc a => addSGR a acc) l c)
  = extraEscapeSequences c.
Proof.
  revert c. induction l as [|a l IH]; intros c; simpl; [reflexivity|].
  now rewrite IH.
Qed.

(** X9. The cell that [setCurrentCharacterTo] writes has the new rune and
    keeps the unhandled sequences that were attached to it.  Its SGR list
    is not a copy of the current SGRs: it is empty when no SGR was ever
    selected ([currentSGRs] is nil), and otherwise it is the list that the
    cell had, with each current SGR added to it.  After a reset, when the
    current list is empty and not nil, a character written over a cell
    takes the SGR list of that cell. *)
Theorem written_cell_keeps_its_attributes (r : Z) (s s' : Screen) :
  setCurrentCharacterTo r s = Ok s' ->
  exists c,
    cellAt (positionY s) (positionX s) s' = Some c
    /\ rune c = r
    /\ extraEscapeSequences c
       = extraEscapeSequences
           (cellOrDefault (positionY s) (positionX s) s)
    /\ sgr c
       = match currentSGRs s with
         | None => []
         | Some current =>
             fold_left (fun acc a => SGR.addToSGRAttributeList a acc) current
                       (sgr (cellOrDefault (positionY s) (positionX s) s))
         end
    /\ (currentSGRs s = Some [] ->
        sgr c = sgr (cellOrDefault (positionY s) (positionX s) s)).
Proof.
  unfold setCurrentCharacterTo. intros H.
  apply withCurrentCharacter_cell in H.
  eexists. split; [exact H|]. split; [apply rune_writeCharacter|].
  unfold writeCharacter.
  destruct (currentSGRs s) as [current|].
  - rewrite extra_fold_addSGR, sgr_fold_addSGR. cbn [setRune sgr
      extraEscapeSequences].
    repeat split. now intros [= ->].
  - repeat split. discriminate.
Qed.

Lemma written_cell_keeps_its_attributes_witness :
  exists s s' c,
    runOps [OpSelectGraphicRenditionAttribute (SGRPrimitive 31);
            OpNormalCharacter 97;
            OpSelectGraphicRenditionAttribute (SGRPrimitive 0);
            OpAbsoluteMoveCursorHorizontal 0] (NewScreen 80 24) = Ok s
    /\ currentSGRs s = Some []
    /\ setCurrentCharacterTo 98 s = Ok s'
    /\ cellAt 0 0 s' = Some c
    /\ rune c = 98
    /\ sgr c = [SGRPrimitive 31].
Proof.
  eexists. eexists.
  destruct (written_cell_keeps_its_attributes 98
              (mkScreen [mkLine [mkCharacter 97 [SGRPrimitive 31] []]]
                        80 24 0 0 false [] (Some []))
              _ eq_refl) as (c & Hc & Hr & _ & _ & Hs).
  exists c. split; [vm_compute; reflexivity|].
  split; [reflexivity|]. split; [reflexivity|].
  split; [exact Hc|]. split; [exact Hr|]. exact (Hs eq_refl).
Defined.

(** ** Unhandled sequences on one cell *)

Lemma extendTo_long_enough (x : Z) (cs : list Character) :
  0 <= x -> (Z.to_nat x < Datatypes.length cs)%nat -> extendTo x cs = cs.
Proof.
  intros Hx H. unfold extendTo.
  replace (Z.to_nat (x + 1) - Datatypes.length cs)%nat with 0%nat by lia.
  apply app_nil_r.
Qed.

Lemma length_extendTo (x : Z) (cs : list Character) :
  0 <= x -> (Z.to_nat x < Datatypes.length (extendTo x cs))%nat.
Proof.
  intros Hx. unfold extendTo. rewrite length_app, repeat_length. lia.
Qed.

Lemma updateNth_twice {A : Type} (f g : A -> A) (l : list A) :
  forall n,
    updateNth n g (updateNth n f l) = updateNth n (fun a => g (f a)) l.
Proof.
  induction l as [|a l IH]; intros n; destruct n; simpl; try reflexivity.
  now rewrite IH.
Qed.

Lemma updateNth_ext {A : Type} (f g : A -> A) (l : list A) :
  (forall a, f a = g a) ->
  forall n, updateNth n f l = updateNth n g l.
Proof.
  intros H. induction l as [|a l IH]; intros n; destruct n; simpl;
    try reflexivity.
  - now rewrite H.
  - now rewrite IH.
Qed.

Lemma withCurrentCharacter_ext (f g : Character -> Character) (s : Screen) :
  (forall c, f c = g c) -> withCurrentCharacter f s = withCurrentCharacter g s.
Proof.
  intros H. unfold withCurrentCharacter, characterAt.
  destruct (currentLine s) as [l|p]; [|reflexivity]. cbn [bind].
  destruct (positionX s <? 0); [reflexivity|].
  destruct (GoInt.maxInt <=? positionX s); [reflexivity|]. cbn [bind].
  now rewrite (updateNth_ext f g _ H).
Qed.

(** Two calls that reach the cell of the cursor, with no move between them,
    are one call. *)
Lemma withCurrentCharacter_twice (f g : Character -> Character)
    (s s1 : Screen) :
  withCurrentCharacter f s = Ok s1 ->
  withCurrentCharacter g s1 = withCurrentCharacter (fun c => g (f c)) s.
Proof.
  intros H. apply withCurrentCharacter_Ok_lines in H
    as (l & Hl & Hy & Hx & ->).
  unfold withCurrentCharacter, currentLine, lineAt, characterAt.
  cbn [lines positionX positionY setLines].
  destruct (Z.ltb_spec (positionY s) 0); [lia|].
  destruct (Z.ltb_spec (positionX s) 0); [lia|].
  destruct (Z.leb_spec GoInt.maxInt (positionX s)); [lia|].
  rewrite (nth_error_updateNth_same _ _ _ _ Hl), Hl. cbn [bind characters].
  rewrite extendTo_long_enough
    by (try lia; rewrite length_updateNth; apply length_extendTo; lia).
  rewrite !updateNth_twice. reflexivity.
Qed.

(** X6. Unhandled sequences that follow one another on the same cell are
    attached to it in the order of their arrival: two calls are one call
    with the concatenation. *)
Theorem unhandled_sequences_accumulate (a b : bytes) (s s1 : Screen) :
  outUnhandledEscapeSequence a s = Ok s1 ->
  outUnhandledEscapeSequence b s1 = outUnhandledEscapeSequence (a ++ b) s.
Proof.
  unfold outUnhandledEscapeSequence. intros H.
  rewrite (withCurrentCharacter_twice _ _ s s1 H).
  apply withCurrentCharacter_ext. intros c.
  unfold appendExtraEscapeSequences. cbn. now rewrite app_assoc.
Qed.

Lemma unhandled_sequences_accumulate_witness :
  exists s1,
    outUnhandledEscapeSequence (str "ab") (NewScreen 80 24) = Ok s1
    /\ outUnhandledEscapeSequence (str "cd") s1
       = outUnhandledEscapeSequence (str "abcd") (NewScreen 80 24).
Proof.
  eexists. split; [vm_compute; reflexivity|].
  apply (unhandled_sequences_accumulate (str "ab") (str "cd")
           (NewScreen 80 24)).
  vm_compute. reflexivity.
Defined.

(** ** The bytes of a line *)

Lemma anySGRSet_hasSGR (cs : list Character) :
  anySGRSet [] cs = existsb hasSGR cs.
Proof.
  induction cs as [|c cs IH]; [reflexivity|].
  cbn [anySGRSet existsb]. unfold hasSGR at 1.
  destruct (sgr c) as [|a l]; [exact IH | reflexivity].
Qed.

Lemma emitCells_plainBytes (cs : list Character) :
  existsb hasSGR cs = false ->
  emitCells [] cs = List.concat (map plainBytes cs).
Proof.
  induction cs as [|c cs IH]; [reflexivity|].
  cbn [existsb emitCells map List.concat]. intros H.
  apply orb_false_iff in H as (Hc & Hcs).
  unfold emitCell, plainBytes. unfold hasSGR in Hc.
  destruct (sgr c) as [|a l]; [|discriminate].
  cbn [SGRs.equals]. rewrite IH by exact Hcs. cbn [app]. reflexivity.
Qed.

(** X12. What [sendLineToScrollbackBuffer] adds to a queue that is not
    empty is a line feed and the cells of the line.  When no cell of the
    line has an SGR attribute the cells are their unhandled sequences and
    their runes and nothing else: no escape sequence is made up.  When one
    has, the line is followed by a reset. *)
Theorem plain_line_is_emitted_verbatim (line : Line) (s : Screen) :
  QueuedScrollbackOutput (sendLineToScrollbackBuffer line s)
  = QueuedScrollbackOutput s
    ++ (if 0 <? len (QueuedScrollbackOutput s) then LF else [])
    ++ (if existsb hasSGR (characters line)
        then emitCells [] (characters line) ++ resetSGR
        else List.concat (map plainBytes (characters line))).
Proof.
  rewrite sendLineToScrollbackBuffer_emitLine. cbn [QueuedScrollbackOutput
    setQueuedScrollbackOutput]. unfold emitLine.
  rewrite anySGRSet_hasSGR.
  destruct (existsb hasSGR (characters line)) eqn:E; [reflexivity|].
  now rewrite emitCells_plainBytes, app_nil_r.
Qed.

(** ** Text on one line *)

Lemma withoutTrailingDefault_last (cs : list Character) (c : Character) :
  isDefaultCharacter c = false ->
  withoutTrailingDefault (cs ++ [c]) = cs ++ [c].
Proof.
  intros Hc. induction cs as [|a cs IH].
  - cbn. now rewrite Hc.
  - change (withoutTrailingDefault ((a :: cs) ++ [c]))
      with (match withoutTrailingDefault (cs ++ [c]) with
            | [] => if isDefaultCharacter a then [] else [a]
            | _ :: _ => a :: withoutTrailingDefault (cs ++ [c])
            end).
    rewrite IH. now destruct cs.
Qed.

Lemma runeToString_not_empty (r : Z) : runeToString r <> [].
Proof.
  unfold runeToString.
  repeat match goal with
         | |- context [if ?c then _ else _] => destruct c
         end; discriminate.
Qed.

(** A character written at the end of the only line of a screen. *)
Lemma outNormalCharacter_appends
    (r : Z) (cs : list Character) (w mh : Z) (q : bytes)
    (cur : option SGRList) :
  len cs < GoInt.maxInt ->
  outNormalCharacter r (mkScreen [mkLine cs] w mh (len cs) 0 false q cur)
  = Ok (mkScreen [mkLine (cs ++ [writeCharacter r cur defaultCharacter])] w mh
                 (len (cs ++ [writeCharacter r cur defaultCharacter])) 0
                 false q cur).
Proof.
  intros Hlen. pose proof (len_nonneg cs) as Hpos.
  unfold outNormalCharacter, setCurrentCharacterTo, withCurrentCharacter,
    currentLine, lineAt, characterAt.
  cbn [positionX positionY lines currentSGRs Z.ltb Z.compare Z.to_nat
       nth_error bind characters].
  destruct (Z.ltb_spec (len cs) 0); [lia|].
  destruct (Z.leb_spec GoInt.maxInt (len cs)); [lia|]. cbn [bind].
  rewrite extendTo_length. unfold len at 1. rewrite Nat2Z.id.
  rewrite updateNth_app_length. unfold nextCharacter, setPositionX.
  cbn [positionX positionY lines currentSGRs setLines updateNth desiredWidth
       maxHeight Ended QueuedScrollbackOutput].
  rewrite add_inRange by int_range.
  rewrite len_app. reflexivity.
Qed.

Lemma runOps_normal_characters (rs : list Z) :
  forall (cs : list Character) (w mh : Z) (q : bytes) (cur : option SGRList),
    len cs + len rs < GoInt.maxInt ->
    runOps (map OpNormalCharacter rs)
           (mkScreen [mkLine cs] w mh (len cs) 0 false q cur)
    = Ok (mkScreen
            [mkLine (cs ++ map (fun r => writeCharacter r cur defaultCharacter)
                                rs)]
            w mh
            (len (cs ++ map (fun r => writeCharacter r cur defaultCharacter)
                            rs))
            0 false q cur).
Proof.
  induction rs as [|r rs IH]; intros cs w mh q cur Hlen.
  - cbn [map runOps]. now rewrite app_nil_r.
  - cbn [map runOps applyOp]. rewrite len_cons in Hlen.
    pose proof (len_nonneg rs).
    rewrite outNormalCharacter_appends by lia. cbn [bind].
    rewrite IH
      by (rewrite len_app;
          change (len [writeCharacter r cur defaultCharacter]) with 1; lia).
    now rewrite <- app_assoc.
Qed.

Lemma SGR_equals_refl (a : SelectGraphicRenditionAttribute) :
  SGR.equals a a = true.
Proof.
  destruct a; cbn; rewrite ?Z.eqb_refl; reflexivity.
Qed.

Lemma emitCells_one_SGR (a : SelectGraphicRenditionAttribute) (rs : list Z) :
  emitCells [a] (map (fun r => mkCharacter r [a] []) rs) = encodeRunes rs.
Proof.
  induction rs as [|r rs IH]; [reflexivity|].
  cbn [map emitCells]. unfold emitCell.
  cbn [sgr extraEscapeSequences rune SGRs.equals].
  rewrite SGR_equals_refl. cbn [andb app]. rewrite IH. reflexivity.
Qed.

(** X8. Text written under one SGR attribute is replayed with the
    attribute set once: a reset, the control sequence of the attribute, the
    text, and a reset.  The attribute is not repeated for each character,
    and spaces at the end of the text are replayed like the rest. *)
Theorem text_under_one_SGR_is_set_once
    (width height : Z) (a : SelectGraphicRenditionAttribute) (rs : list Z) :
  SGR.isUnsetAll a = false ->
  rs <> [] ->
  len rs < GoInt.maxInt ->
  exists s s',
    runOps (OpSelectGraphicRenditionAttribute a :: map OpNormalCharacter rs)
           (NewScreen width height) = Ok s
    /\ End s = Ok s'
    /\ QueuedScrollbackOutput s'
       = resetSGR ++ SGR.toCSI a ++ encodeRunes rs ++ resetSGR.
Proof.
  intros Ha Hne Hlen.
  cbn [runOps applyOp bind]. unfold outSelectGraphicRenditionAttribute.
  rewrite Ha. unfold NewScreen, setCurrentSGRs.
  cbn [lines desiredWidth maxHeight positionX positionY Ended
       QueuedScrollbackOutput currentSGRs].
  change NewLine with (mkLine []).
  change 0 with (len (@nil Character)) at 1.
  rewrite runOps_normal_characters
    by (change (len (@nil Character)) with 0; lia).
  cbn [app].
  assert (forall r,
            writeCharacter r (Some (SGR.addToSGRAttributeList a []))
                           defaultCharacter
            = mkCharacter r [a] []) as Hw by reflexivity.
  rewrite (map_ext _ _ Hw).
  eexists; eexists. split; [reflexivity|].
  split; [apply End_endScrollback
            with (line := mkLine (map (fun r => mkCharacter r [a] []) rs));
          reflexivity|].
  cbn [QueuedScrollbackOutput]. unfold endScrollback.
  cbn [lines positionX positionY QueuedScrollbackOutput currentScreenHeight
       fold_left].
  unfold lengthWithoutTrailingSpacesAndEmptyRunes. cbn [characters].
  destruct (exists_last Hne) as (rs' & r & ->).
  rewrite map_app. cbn [map].
  rewrite withoutTrailingDefault_last
    by (unfold isDefaultCharacter; cbn; now destruct (r =? 32)).
  rewrite sub_diag.
  replace (GoInt.sub (GoInt.sub (len [mkLine (map (fun r => mkCharacter r [a] []) rs' ++ [mkCharacter r [a] []])]) 0) 1)
    with 0 by reflexivity.
  change (moveBytes 0 "C" "D") with (@nil ascii).
  change (moveBytes 0 "B" "A") with (@nil ascii).
  rewrite !app_nil_r. unfold emitLine. cbn [characters].
  change (0 <? len (@nil ascii)) with false. cbn iota. cbn [app].
  rewrite anySGRSet_hasSGR.
  rewrite <- map_app with (f := fun r => mkCharacter r [a] []) (l' := [r]).
  destruct (rs' ++ [r]) as [|r0 rs0] eqn:E; [now destruct rs'|].
  cbn [map existsb emitCells]. unfold emitCell, hasSGR at 1.
  cbn [sgr extraEscapeSequences rune SGRs.equals orb app List.concat map].
  rewrite emitCells_one_SGR. unfold encodeRunes. cbn [map List.concat].
  rewrite app_nil_r, <- !app_assoc. reflexivity.
Qed.

Lemma text_under_one_SGR_is_set_once_witness :
  exists s s',
    runOps (OpSelectGraphicRenditionAttribute (SGRPrimitive 31)
            :: map OpNormalCharacter [114; 101; 100; 32]) (NewScreen 80 24)
    = Ok s
    /\ End s = Ok s'
    /\ QueuedScrollbackOutput s'
       = resetSGR ++ SGR.toCSI (SGRPrimitive 31)
         ++ encodeRunes [114; 101; 100; 32] ++ resetSGR.
Proof.
  apply (text_under_one_SGR_is_set_once 80 24 (SGRPrimitive 31)
           [114; 101; 100; 32]).
  - reflexivity.
  - discriminate.
  - vm_compute. reflexivity.
Defined.

(** ** Text with unhandled sequences *)

Lemma outNormalCharacter_on_pending
    (r : Z) (cs : list Character) (p : option bytes) (w mh : Z) (q : bytes) :
  len cs < GoInt.maxInt ->
  outNormalCharacter r
    (mkScreen [mkLine (cs ++ pendingCells p)] w mh (len cs) 0 false q None)
  = Ok (mkScreen [mkLine ((cs ++ [mkCharacter r [] (pendingBytes p)])
                          ++ pendingCells None)] w mh
                 (len (cs ++ [mkCharacter r [] (pendingBytes p)])) 0
                 false q None).
Proof.
  intros Hlen. destruct p as [a|].
  - pose proof (len_nonneg cs) as Hpos.
    unfold outNormalCharacter, setCurrentCharacterTo, withCurrentCharacter,
      currentLine, lineAt, characterAt.
    cbn [positionX positionY lines currentSGRs Z.ltb Z.compare Z.to_nat
         nth_error bind characters pendingCells pendingBytes].
    destruct (Z.ltb_spec (len cs) 0); [lia|].
    destruct (Z.leb_spec GoInt.maxInt (len cs)); [lia|]. cbn [bind].
    rewrite extendTo_long_enough
      by (try lia; rewrite length_app; unfold len; cbn; lia).
    unfold len at 1. rewrite Nat2Z.id, updateNth_app_length.
    unfold nextCharacter, setPositionX.
    cbn [positionX positionY lines currentSGRs setLines updateNth
         desiredWidth maxHeight Ended QueuedScrollbackOutput].
    rewrite add_inRange by int_range.
    rewrite len_app, app_nil_r. reflexivity.
  - cbn [pendingCells pendingBytes]. rewrite !app_nil_r.
    apply (outNormalCharacter_appends r cs w mh q None Hlen).
Qed.

Lemma outUnhandledEscapeSequence_on_pending
    (seq : bytes) (cs : list Character) (p : option bytes) (w mh : Z)
    (q : bytes) :
  len cs < GoInt.maxInt ->
  outUnhandledEscapeSequence seq
    (mkScreen [mkLine (cs ++ pendingCells p)] w mh (len cs) 0 false q None)
  = Ok (mkScreen
          [mkLine (cs ++ pendingCells (Some (pendingBytes p ++ seq)))] w mh
          (len cs) 0 false q None).
Proof.
  intros Hlen. pose proof (len_nonneg cs) as Hpos.
  unfold outUnhandledEscapeSequence, withCurrentCharacter,
    currentLine, lineAt, characterAt.
  cbn [positionX positionY lines currentSGRs Z.ltb Z.compare Z.to_nat
       nth_error bind characters].
  destruct (Z.ltb_spec (len cs) 0); [lia|].
  destruct (Z.leb_spec GoInt.maxInt (len cs)); [lia|]. cbn [bind].
  destruct p as [a|]; cbn [pendingCells pendingBytes].
  - rewrite extendTo_long_enough
      by (try lia; rewrite length_app; unfold len; cbn; lia).
    unfold len at 1. rewrite Nat2Z.id, updateNth_app_length. reflexivity.
  - rewrite app_nil_r, extendTo_length. unfold len at 1.
    rewrite Nat2Z.id, updateNth_app_length. reflexivity.
Qed.

Lemma runOps_items (items : list StreamItem) :
  forall (cs : list Character) (p : option bytes) (w mh : Z) (q : bytes),
    len cs + len items < GoInt.maxInt ->
    runOps (map opOfItem items)
      (mkScreen [mkLine (cs ++ pendingCells p)] w mh (len cs) 0 false q None)
    = Ok (mkScreen
            [mkLine ((cs ++ fst (itemCells p items))
                     ++ pendingCells (snd (itemCells p items)))] w mh
            (len (cs ++ fst (itemCells p items))) 0 false q None).
Proof.
  induction items as [|i items IH]; intros cs p w mh q Hlen.
  - cbn [map runOps itemCells fst snd]. now rewrite app_nil_r.
  - rewrite len_cons in Hlen. pose proof (len_nonneg items).
    destruct i as [r|seq]; cbn [map runOps applyOp opOfItem itemCells].
    + rewrite outNormalCharacter_on_pending by lia. cbn [bind].
      rewrite IH
        by (rewrite len_app;
            change (len [mkCharacter r [] (pendingBytes p)]) with 1; lia).
      destruct (itemCells None items) as [cells p']. cbn [fst snd].
      now rewrite <- !app_assoc.
    + rewrite outUnhandledEscapeSequence_on_pending by lia. cbn [bind].
      rewrite IH by lia. reflexivity.
Qed.

Lemma itemCells_plain (items : list StreamItem) :
  forall p, existsb hasSGR (fst (itemCells p items)) = false.
Proof.
  induction items as [|i items IH]; intros p; [reflexivity|].
  destruct i as [r|seq]; cbn [itemCells].
  - specialize (IH None). destruct (itemCells None items). exact IH.
  - apply IH.
Qed.

Lemma itemCells_bytes (items : list StreamItem) :
  forall p,
    List.concat (map plainBytes (fst (itemCells p items)))
    ++ pendingBytes (snd (itemCells p items))
    = pendingBytes p ++ encodeItems items.
Proof.
  unfold encodeItems.
  induction items as [|i items IH]; intros p.
  - cbn. now rewrite app_nil_r.
  - destruct i as [r|seq]; cbn [itemCells map List.concat encodeItem].
    + specialize (IH None). destruct (itemCells None items) as [cells p'].
      cbn [fst snd map List.concat pendingBytes app] in *.
      unfold plainBytes at 1. cbn [extraEscapeSequences rune].
      rewrite <- !app_assoc. now rewrite IH.
    + rewrite IH. cbn [pendingBytes]. now rewrite <- app_assoc.
Qed.

Lemma itemCells_visible_end (items : list StreamItem) :
  forall p,
    items <> [] ->
    endsWithVisibleRune items ->
    snd (itemCells p items) = None
    /\ exists cells c,
         fst (itemCells p items) = cells ++ [c]
         /\ isDefaultCharacter c = false.
Proof.
  induction items as [|i items IH]; intros p Hne Hv; [contradiction|].
  destruct items as [|j items].
  - destruct i as [r|seq]; [|contradiction]. cbn in Hv.
    cbn [itemCells fst snd]. split; [reflexivity|].
    exists [], (mkCharacter r [] (pendingBytes p)). split; [reflexivity|].
    unfold isDefaultCharacter. cbn [rune].
    destruct (Z.eqb_spec r 32); [contradiction | reflexivity].
  - change (endsWithVisibleRune (i :: j :: items))
      with (endsWithVisibleRune (j :: items)) in Hv.
    destruct i as [r|seq].
    + destruct (IH None ltac:(discriminate) Hv) as (Hs & cells & c & Hf & Hc).
      change (itemCells p (ItemRune r :: j :: items))
        with (let '(cs, p') := itemCells None (j :: items) in
              (mkCharacter r [] (pendingBytes p) :: cs, p')).
      destruct (itemCells None (j :: items)) as [cs p'].
      cbn [fst snd] in *. split; [exact Hs|].
      exists (mkCharacter r [] (pendingBytes p) :: cells), c.
      split; [now rewrite Hf | exact Hc].
    + change (itemCells p (ItemEscape seq :: j :: items))
        with (itemCells (Some (pendingBytes p ++ seq)) (j :: items)).
      apply IH; [discriminate | exact Hv].
Qed.

(** X7. Unhandled sequences keep their place in the text: for a stream of
    runes and unhandled sequences, fed to a fresh screen with no SGR
    selected, that ends with a rune other than a space, the scrollback at
    [End] is the stream, every sequence coming just before the rune that
    followed it. *)
Theorem replay_preserves_unhandled_sequences
    (width height : Z) (items : list StreamItem) :
  endsWithVisibleRune items ->
  len items < GoInt.maxInt ->
  exists s s',
    runOps (map opOfItem items) (NewScreen width height) = Ok s
    /\ End s = Ok s'
    /\ QueuedScrollbackOutput s' = encodeItems items.
Proof.
  intros Hv Hlen.
  pose proof (runOps_items items [] None
                (if width <=? 0 then 1 else width)
                (if height <=? 0 then 1 else height) [] ) as HR.
  change (len (@nil Character)) with 0 in HR. cbn [app pendingCells] in HR.
  specialize (HR ltac:(lia)).
  destruct items as [|i items].
  - exists (NewScreen width height). eexists.
    split; [reflexivity|]. split; reflexivity.
  - destruct (itemCells_visible_end (i :: items) None ltac:(discriminate) Hv)
      as (Hs & cells & c & Hf & Hc).
    pose proof (itemCells_bytes (i :: items) None) as HB.
    pose proof (itemCells_plain (i :: items) None) as HP.
    rewrite Hs in HR, HB. cbn [pendingCells pendingBytes] in HR, HB.
    rewrite app_nil_r in HR, HB. cbn [app] in HB.
    eexists; eexists. split; [exact HR|].
    split; [apply End_endScrollback
              with (line := mkLine (fst (itemCells None (i :: items))));
            reflexivity|].
    cbn [QueuedScrollbackOutput]. unfold endScrollback.
    cbn [lines positionX positionY QueuedScrollbackOutput currentScreenHeight
         fold_left].
    unfold lengthWithoutTrailingSpacesAndEmptyRunes. cbn [characters].
    replace (withoutTrailingDefault (fst (itemCells None (i :: items))))
      with (fst (itemCells None (i :: items)))
      by (rewrite Hf; symmetry; now apply withoutTrailingDefault_last).
    rewrite sub_diag.
    replace (GoInt.sub
               (GoInt.sub (len [mkLine (fst (itemCells None (i :: items)))]) 0)
               1)
      with 0 by reflexivity.
    change (moveBytes 0 "C" "D") with (@nil ascii).
    change (moveBytes 0 "B" "A") with (@nil ascii).
    rewrite !app_nil_r. unfold emitLine. cbn [characters].
    change (0 <? len (@nil ascii)) with false. cbn iota. cbn [app].
    rewrite anySGRSet_hasSGR, HP, app_nil_r.
    rewrite emitCells_plainBytes by exact HP. exact HB.
Qed.

Lemma replay_preserves_unhandled_sequences_witness :
  exists s s',
    runOps (map opOfItem
              [ItemRune 102; ItemEscape (ESC ++ str "]0;t" ++ ["007"%char]);
               ItemEscape (str "x"); ItemRune 98])
           (NewScreen 80 24) = Ok s
    /\ End s = Ok s'
    /\ QueuedScrollbackOutput s'
       = encodeItems
           [ItemRune 102; ItemEscape (ESC ++ str "]0;t" ++ ["007"%char]);
            ItemEscape (str "x"); ItemRune 98].
Proof.
  apply (replay_preserves_unhandled_sequences 80 24
           [ItemRune 102; ItemEscape (ESC ++ str "]0;t" ++ ["007"%char]);
            ItemEscape (str "x"); ItemRune 98]).
  - cbn. discriminate.
  - vm_compute. reflexivity.
Defined.

(** ** Lines of text on a screen of one line *)

Lemma emitLine_plain (q : bytes) (rs : list Z) :
  emitLine q (mkLine (map plainCell rs))
  = q ++ (if 0 <? len q then LF else []) ++ encodeRunes rs.
Proof.
  unfold emitLine. cbn [characters].
  now rewrite emitCells_plain, anySGRSet_plain, app_nil_r.
Qed.

(** A carriage return and a line feed on a full screen of one line: the
    line goes to the scrollback and the cursor is at the start of an empty
    line. *)
Lemma carriage_return_line_feed_on_one_line
    (cs : list Character) (w x : Z) (q : bytes) :
  runOps [OpAbsoluteMoveCursorHorizontal 0; OpNextLine]
         (mkScreen [mkLine cs] w 1 x 0 false q None)
  = Ok (mkScreen [mkLine []] w 1 0 0 false (emitLine q (mkLine cs)) None).
Proof.
  assert (nextLine (mkScreen [mkLine cs] w 1 0 0 false q None)
          = Ok (setLines [NewLine]
                  (sendLineToScrollbackBuffer (mkLine cs)
                     (mkScreen [mkLine cs; NewLine] w 1 0 0 false q None))))
    as H by reflexivity.
  rewrite sendLineToScrollbackBuffer_emitLine in H.
  cbn [runOps applyOp bind].
  change (outAbsoluteMoveCursorHorizontal 0
            (mkScreen [mkLine cs] w 1 x 0 false q None))
    with (mkScreen [mkLine cs] w 1 0 0 false q None).
  rewrite H. reflexivity.
Qed.

Lemma runOps_app_Ok (ops1 ops2 : list ScreenOp) (s s1 : Screen) :
  runOps ops1 s = Ok s1 -> runOps (ops1 ++ ops2) s = runOps ops2 s1.
Proof.
  revert s. induction ops1 as [|op ops1 IH]; intros s H.
  - now inversion H; subst.
  - cbn [app runOps] in *. apply bind_Ok_inv in H as (s' & H' & H).
    rewrite H'. cbn [bind]. now apply IH.
Qed.

(** The lines but the last go to the scrollback one after the other; the
    last is on the screen. *)
Lemma runOps_linesOps (rest : list (list Z)) :
  forall (l : list Z) (w : Z) (q : bytes),
    Forall (fun l' => len l' < GoInt.maxInt) (l :: rest) ->
    runOps (linesOps (l :: rest))
           (mkScreen [mkLine []] w 1 0 0 false q None)
    = Ok (mkScreen [mkLine (map plainCell (last (l :: rest) []))] w 1
                   (len (map plainCell (last (l :: rest) []))) 0 false
                   (fold_left (fun q' l' => emitLine q' (mkLine (map plainCell l')))
                              (removelast (l :: rest)) q)
                   None).
Proof.
  induction rest as [|l2 rest IH]; intros l w q HF;
    inversion HF as [|? ? Hl HF']; subst.
  - cbn [linesOps last removelast fold_left]. rewrite app_nil_r.
    change 0 with (len (@nil Character)) at 1.
    rewrite runOps_normal_characters
      by (change (len (@nil Character)) with 0; lia).
    reflexivity.
  - change (linesOps (l :: l2 :: rest))
      with (map OpNormalCharacter l
            ++ ([OpAbsoluteMoveCursorHorizontal 0; OpNextLine]
                ++ linesOps (l2 :: rest))).
    change 0 with (len (@nil Character)) at 1.
    rewrite (runOps_app_Ok _ _ _ _
               (runOps_normal_characters l [] w 1 q None
                  ltac:(change (len (@nil Character)) with 0; lia))).
    rewrite (runOps_app_Ok _ _ _ _
               (carriage_return_line_feed_on_one_line _ w _ q)).
    rewrite IH by exact HF'.
    reflexivity.
Qed.

Lemma fold_emitLine_plain_joined (rest : list (list Z)) :
  forall q,
    q <> [] ->
    fold_left (fun q' l' => emitLine q' (mkLine (map plainCell l'))) rest q
    = q ++ List.concat (map (fun l' => LF ++ encodeRunes l') rest).
Proof.
  induction rest as [|l rest IH]; intros q Hq.
  - cbn. now rewrite app_nil_r.
  - cbn [fold_left map List.concat]. rewrite emitLine_plain.
    assert ((0 <? len q) = true) as ->.
    { destruct q; [contradiction|]. unfold len. cbn. reflexivity. }
    rewrite IH by (destruct q; [contradiction | discriminate]).
    now rewrite <- !app_assoc.
Qed.

Lemma encodeRunes_not_empty (l : list Z) : l <> [] -> encodeRunes l <> [].
Proof.
  destruct l as [|r l]; [contradiction|]. intros _.
  unfold encodeRunes. cbn [map List.concat].
  pose proof (runeToString_not_empty r).
  destruct (runeToString r); [contradiction | discriminate].
Qed.

(** X11. On a screen of one line, lines of text separated by a carriage
    return and a line feed are replayed joined by line feeds: each line
    goes to the scrollback when the next one evicts it and the last one at
    [End].  The first line must not be empty and the last must not end
    with a space. *)
Theorem lines_replay_on_a_screen_of_one_line
    (width height : Z) (l : list Z) (rest : list (list Z)) :
  height <= 1 ->
  l <> [] ->
  last (last (l :: rest) []) 0 <> 32 ->
  Forall (fun l' => len l' < GoInt.maxInt) (l :: rest) ->
  exists s s',
    runOps (linesOps (l :: rest)) (NewScreen width height) = Ok s
    /\ End s = Ok s'
    /\ QueuedScrollbackOutput s' = joinLines (l :: rest).
Proof.
  intros Hh Hl Hlast HF.
  assert (NewScreen width height
          = mkScreen [mkLine []] (if width <=? 0 then 1 else width) 1 0 0
                     false [] None) as ->.
  { unfold NewScreen. destruct (Z.leb_spec height 0); [reflexivity|].
    now replace height with 1 by lia. }
  rewrite runOps_linesOps by exact HF.
  eexists; eexists. split; [reflexivity|].
  split; [apply End_endScrollback
            with (line := mkLine (map plainCell (last (l :: rest) [])));
          reflexivity|].
  cbn [QueuedScrollbackOutput]. unfold endScrollback.
  cbn [lines positionX positionY QueuedScrollbackOutput currentScreenHeight].
  unfold lengthWithoutTrailingSpacesAndEmptyRunes. cbn [characters].
  rewrite withoutTrailingDefault_plain by exact Hlast.
  rewrite sub_diag.
  replace (GoInt.sub
             (GoInt.sub (len [mkLine (map plainCell (last (l :: rest) []))]) 0)
             1)
    with 0 by reflexivity.
  change (moveBytes 0 "C" "D") with (@nil ascii).
  change (moveBytes 0 "B" "A") with (@nil ascii).
  rewrite !app_nil_r.
  change (fold_left emitLine [mkLine (map plainCell (last (l :: rest) []))]
            (fold_left
               (fun q' l' => emitLine q' (mkLine (map plainCell l')))
               (removelast (l :: rest)) []))
    with (fold_left (fun q' l' => emitLine q' (mkLine (map plainCell l')))
            [last (l :: rest) []]
            (fold_left
               (fun q' l' => emitLine q' (mkLine (map plainCell l')))
               (removelast (l :: rest)) [])).
  rewrite <- fold_left_app.
  rewrite <- app_removelast_last by discriminate.
  cbn [fold_left]. rewrite emitLine_plain.
  change (0 <? len (@nil ascii)) with false. cbn iota. cbn [app].
  rewrite fold_emitLine_plain_joined by (now apply encodeRunes_not_empty).
  reflexivity.
Qed.

Lemma lines_replay_on_a_screen_of_one_line_witness :
  exists s s',
    runOps (linesOps [[104; 105]; []; [111; 107]; []]) (NewScreen 80 1) = Ok s
    /\ End s = Ok s'
    /\ QueuedScrollbackOutput s' = joinLines [[104; 105]; []; [111; 107]; []].
Proof.
  apply (lines_replay_on_a_screen_of_one_line 80 1 [104; 105]
           [[]; [111; 107]; []]).
  - lia.
  - discriminate.
  - cbn. lia.
  - repeat constructor.
Defined.

(** ** A line feed at the bottom of a screen that is not full *)

(** X14. On a screen that has fewer than [maxHeight] lines, a line feed
    with the cursor on the last line adds an empty line below and leaves
    the cursor where it is; it takes a second line feed to move the cursor
    onto the new line.  Neither emits anything. *)
Theorem line_feed_at_the_bottom_with_room (s : Screen) :
  ScreenOK s ->
  positionY s = len (lines s) - 1 ->
  len (lines s) < maxHeight s ->
  nextLine s = Ok (setLines (lines s ++ [NewLine]) s)
  /\ runOps [OpNextLine; OpNextLine] s
     = Ok (setPositionY (positionY s + 1)
             (setLines (lines s ++ [NewLine]) s)).
Proof.
  intros HI Hy Hroom. pose proof HI as [[] Hm].
  destruct (nextLine_cases s HI) as (_ & C2 & _).
  specialize (C2 Hy Hroom). split; [exact C2|].
  cbn [runOps applyOp]. rewrite C2. cbn [bind].
  assert (ScreenOK (setLines (lines s ++ [NewLine]) s)) as HI'
    by (eapply nextLine_preserves; eauto).
  destruct (nextLine_cases _ HI') as (C1 & _).
  cbn [positionY lines setLines] in C1. rewrite len_app in C1.
  change (len [NewLine]) with 1 in C1.
  rewrite (C1 ltac:(lia)). reflexivity.
Qed.

Lemma line_feed_at_the_bottom_with_room_witness :
  nextLine (NewScreen 80 24) = Ok (setLines [NewLine; NewLine] (NewScreen 80 24))
  /\ runOps [OpNextLine; OpNextLine] (NewScreen 80 24)
     = Ok (setPositionY 1 (setLines [NewLine; NewLine] (NewScreen 80 24))).
Proof.
  apply (line_feed_at_the_bottom_with_room (NewScreen 80 24)).
  - apply NewScreen_OK. int_range.
  - reflexivity.
  - reflexivity.
Defined.

(** * Properties of main.go *)

Module CommandFacts.
Import Command.

(** ** The template *)

Lemma HasPrefix_refl (s : bytes) : HasPrefix s s = true.
Proof.
  induction s as [|c s IH]; [reflexivity|].
  cbn. now rewrite Ascii.eqb_refl, IH.
Qed.

Lemma replaceFrom_skip_all (old new : bytes) (s : bytes) :
  forall skip, (Datatypes.length s <= skip)%nat ->
               replaceFrom old new skip s = [].
Proof.
  induction s as [|c s IH]; intros skip H; [reflexivity|].
  destruct skip as [|k]; [cbn in H; lia|].
  cbn. apply IH. cbn in H. lia.
Qed.

Lemma ReplaceAll_absent (s old new : bytes) :
  Contains s old = false -> ReplaceAll s old new = s.
Proof.
  unfold ReplaceAll. induction s as [|c s IH]; intros H; [reflexivity|].
  cbn [Contains] in H. apply orb_false_iff in H as (Hp & Hc).
  cbn [replaceFrom]. rewrite Hp. now rewrite IH.
Qed.

Lemma ReplaceAll_whole (old new : bytes) :
  old <> [] -> ReplaceAll old old new = new.
Proof.
  intros H. unfold ReplaceAll. destruct old as [|c old]; [contradiction|].
  cbn [replaceFrom]. rewrite HasPrefix_refl.
  rewrite replaceFrom_skip_all by (cbn; lia). apply app_nil_r.
Qed.

Lemma substituteLoop_map (flTemplate argument : bytes)
    (command : list bytes) :
  forall n,
    0 <= n ->
    n + len command <= GoInt.maxInt ->
    substituteLoop flTemplate argument command n
    = (map (fun word => ReplaceAll word flTemplate argument) command,
       n + len (filter (fun word => Contains word flTemplate) command)).
Proof.
  induction command as [|word rest IH]; intros n Hn Hlen.
  - cbn. f_equal. unfold len. cbn. lia.
  - rewrite len_cons in Hlen. pose proof (len_nonneg rest).
    cbn [substituteLoop map filter].
    destruct (Contains word flTemplate) eqn:E; cbn [negb].
    + rewrite add_inRange by int_range.
      rewrite IH by lia. f_equal. rewrite len_cons. lia.
    + rewrite IH by lia. now rewrite ReplaceAll_absent.
Qed.

Lemma filter_none_iff {A : Type} (f : A -> bool) (l : list A) :
  len (filter f l) = 0 <-> existsb f l = false.
Proof.
  induction l as [|a l IH]; cbn [filter existsb]; [now unfold len|].
  destruct (f a); cbn [orb].
  - rewrite len_cons. pose proof (len_nonneg (filter f l)).
    split; [lia | discriminate].
  - exact IH.
Qed.

(** X15. [instantiateCommandString] either substitutes or appends, never
    both: when the template is empty or occurs in no word of the command,
    the argument is appended as a last word and the words are left alone;
    otherwise the template is replaced in every word and no word is
    added. *)
Theorem instantiate_substitutes_or_appends
    (flTemplate : bytes) (command : list bytes) (argument : bytes) :
  len command <= GoInt.maxInt ->
  instantiateCommandString flTemplate command argument
  = match flTemplate with
    | [] => command ++ [argument]
    | _ :: _ =>
        if existsb (fun word => Contains word flTemplate) command
        then map (fun word => ReplaceAll word flTemplate argument) command
        else command ++ [argument]
    end.
Proof.
  intros Hlen. unfold instantiateCommandString.
  destruct flTemplate as [|c tpl]; [reflexivity|].
  rewrite substituteLoop_map by lia. cbn [Z.add].
  destruct (existsb (fun word => Contains word (c :: tpl)) command) eqn:E.
  - destruct (Z.eqb_spec
                (len (filter (fun word => Contains word (c :: tpl)) command))
                0) as [Z|_]; [|reflexivity].
    apply filter_none_iff in Z. congruence.
  - apply filter_none_iff in E as E'. rewrite E'. cbn [Z.eqb].
    f_equal. rewrite <- (map_id command) at 2. apply map_ext_in.
    intros word Hin. apply ReplaceAll_absent.
    destruct (Contains word (c :: tpl)) eqn:Ew; [|reflexivity].
    assert (existsb (fun word => Contains word (c :: tpl)) command = true)
      as Hex by (apply existsb_exists; eauto).
    congruence.
Qed.

Lemma instantiate_substitutes_or_appends_witness :
  instantiateCommandString (str "{}") [str "echo"; str "a{}b"; str "c"]
                           (str "X")
  = [str "echo"; str "aXb"; str "c"]
  /\ instantiateCommandString (str "{}") [str "echo"; str "c"] (str "X")
     = [str "echo"; str "c"; str "X"].
Proof.
  split.
  - rewrite (instantiate_substitutes_or_appends (str "{}")
               [str "echo"; str "a{}b"; str "c"] (str "X"));
      [reflexivity | vm_compute; discriminate].
  - rewrite (instantiate_substitutes_or_appends (str "{}")
               [str "echo"; str "c"] (str "X"));
      [reflexivity | vm_compute; discriminate].
Defined.

(** X16. A word of the command that is the template, alone among the
    words to contain it, becomes the argument, whatever the argument is;
    the other words keep their place and their content. *)
Theorem template_word_becomes_the_argument
    (flTemplate argument : bytes) (before after : list bytes) :
  flTemplate <> [] ->
  Forall (fun word => Contains word flTemplate = false) (before ++ after) ->
  len (before ++ flTemplate :: after) <= GoInt.maxInt ->
  instantiateCommandString flTemplate (before ++ flTemplate :: after) argument
  = before ++ argument :: after.
Proof.
  intros Hne HF Hlen. unfold instantiateCommandString.
  destruct flTemplate as [|c tpl] eqn:Et; [contradiction|]. rewrite <- Et in *.
  rewrite substituteLoop_map by lia. cbn [Z.add].
  apply Forall_app in HF as (HFb & HFa).
  assert (forall l, Forall (fun word => Contains word flTemplate = false) l ->
                    map (fun word => ReplaceAll word flTemplate argument) l = l)
    as Hmap.
  { intros l Hl. rewrite <- (map_id l) at 2. apply map_ext_in.
    intros word Hin. apply ReplaceAll_absent.
    rewrite Forall_forall in Hl. now apply Hl. }
  assert (Contains flTemplate flTemplate = true) as Hself.
  { destruct flTemplate; [contradiction|].
    cbn [Contains]. now rewrite HasPrefix_refl. }
  destruct (Z.eqb_spec
              (len (filter (fun word => Contains word flTemplate)
                           (before ++ flTemplate :: after))) 0) as [Z|_].
  - apply filter_none_iff in Z. rewrite existsb_app in Z.
    cbn [existsb] in Z. rewrite Hself, orb_true_r in Z. discriminate.
  - rewrite map_app. cbn [map].
    rewrite (Hmap before HFb), (Hmap after HFa), ReplaceAll_whole by exact Hne.
    reflexivity.
Qed.

Lemma template_word_becomes_the_argument_witness :
  instantiateCommandString (str "{}") ([str "cp"] ++ str "{}" :: [str "/tmp"])
                           (str "a{}b")
  = [str "cp"] ++ str "a{}b" :: [str "/tmp"].
Proof.
  apply (template_word_becomes_the_argument (str "{}") (str "a{}b")
           [str "cp"] [str "/tmp"]).
  - discriminate.
  - repeat constructor.
  - vm_compute. discriminate.
Defined.

End CommandFacts.

Module StdinFacts.
Import Command.

(** ** The lines of the standard input *)

Lemma ReadString_noLF (l : bytes) :
  noLF l -> ReadString l = (l, [], true).
Proof.
  unfold noLF. induction l as [|c l IH]; intros H; [reflexivity|].
  cbn [ReadString].
  destruct (Ascii.eqb_spec c "010") as [->|_]; [exfalso; apply H; now left|].
  rewrite IH; [reflexivity|]. intros Hin. apply H. now right.
Qed.

Lemma ReadString_line (l rest : bytes) :
  noLF l -> ReadString (l ++ LF ++ rest) = (l ++ LF, rest, false).
Proof.
  unfold noLF. induction l as [|c l IH]; intros H; [reflexivity|].
  cbn [app ReadString].
  destruct (Ascii.eqb_spec c "010") as [->|_]; [exfalso; apply H; now left|].
  rewrite IH; [reflexivity|]. intros Hin. apply H. now right.
Qed.

Lemma TrimSuffixLF_noLF (l : bytes) : noLF l -> TrimSuffixLF l = l.
Proof.
  unfold noLF. induction l as [|c l IH]; intros H; [reflexivity|].
  destruct l as [|d l].
  - cbn. destruct (Ascii.eqb_spec c "010") as [->|_]; [|reflexivity].
    exfalso. apply H. now left.
  - change (TrimSuffixLF (c :: d :: l)) with (c :: TrimSuffixLF (d :: l)).
    rewrite IH; [reflexivity|]. intros Hin. apply H. now right.
Qed.

Lemma TrimSuffixLF_line (l : bytes) : TrimSuffixLF (l ++ LF) = l.
Proof.
  induction l as [|c l IH]; [reflexivity|].
  destruct l as [|d l]; [reflexivity|].
  change (TrimSuffixLF ((c :: d :: l) ++ LF))
    with (c :: TrimSuffixLF ((d :: l) ++ LF)).
  now rewrite IH.
Qed.

Lemma stdinLoop_unlines (ls : list bytes) :
  forall (l : bytes) (fuel : nat),
    Forall noLF ls ->
    noLF l ->
    (Datatypes.length (unlines ls ++ l) < fuel)%nat ->
    stdinLoop fuel (unlines ls ++ l) = Some (filter notEmpty (ls ++ [l])).
Proof.
  induction ls as [|l1 ls IH]; intros l fuel HF Hl Hfuel.
  - destruct fuel as [|fuel]; [lia|].
    cbn [unlines map List.concat app stdinLoop].
    rewrite (ReadString_noLF l Hl), (TrimSuffixLF_noLF l Hl).
    cbn [filter]. unfold notEmpty. now destruct (0 <? len l).
  - inversion HF as [|? ? H1 HF']; subst.
    destruct fuel as [|fuel]; [lia|].
    change (unlines (l1 :: ls) ++ l) with (((l1 ++ LF) ++ unlines ls) ++ l)
      in *.
    rewrite <- !app_assoc in *.
    cbn [stdinLoop]. rewrite (ReadString_line l1 _ H1), TrimSuffixLF_line.
    rewrite IH; [|exact HF'|exact Hl|].
    + cbn [app filter option_map]. unfold notEmpty at 2.
      now destruct (0 <? len l1).
    + rewrite !length_app in *. cbn in Hfuel. lia.
Qed.

(** X17. The loop of [startProcessesFromStdin] instantiates the command
    once for each line of the standard input that is not empty, in order:
    for an input made of the lines [ls], each ended by a line feed, and of
    a last line [l] that the end of file ends, the arguments are the
    non-empty ones among [ls] and [l].  A last line with no line feed is
    read like the others, and blank lines are skipped. *)
Theorem stdin_lines_are_the_arguments
    (flTemplate : bytes) (command : list bytes) (ls : list bytes)
    (l : bytes) :
  Forall noLF ls ->
  noLF l ->
  startProcessesFromStdin flTemplate command (unlines ls ++ l)
  = Some (map (instantiateCommandString flTemplate command)
              (filter notEmpty (ls ++ [l]))).
Proof.
  intros HF Hl. unfold startProcessesFromStdin, stdinLines.
  rewrite stdinLoop_unlines by (try assumption; lia). reflexivity.
Qed.

Lemma stdin_lines_are_the_arguments_witness :
  startProcessesFromStdin (str "{}") [str "echo"]
    (unlines [str "a"; str ""; str "b c"] ++ str "d")
  = Some (map (instantiateCommandString (str "{}") [str "echo"])
              (filter notEmpty ([str "a"; str ""; str "b c"] ++ [str "d"]))).
Proof.
  apply (stdin_lines_are_the_arguments (str "{}") [str "echo"]
           [str "a"; str ""; str "b c"] (str "d")).
  - repeat constructor; unfold noLF; cbn; intuition discriminate.
  - unfold noLF; cbn; intuition discriminate.
Defined.

Lemma ReadString_shorter (input : bytes) :
  forall line rest eof,
    ReadString input = (line, rest, eof) ->
    (eof = false -> (Datatypes.length rest < Datatypes.length input)%nat)
    /\ noLF (TrimSuffixLF line).
Proof.
  unfold noLF.
  induction input as [|c input IH]; intros line rest eof H.
  - inversion H; subst. split; [discriminate | intros []].
  - cbn [ReadString] in H.
    destruct (Ascii.eqb_spec c "010") as [->|Hc].
    + inversion H; subst. split; [cbn; lia | intros []].
    + destruct (ReadString input) as [[line' rest'] eof'] eqn:E.
      inversion H; subst.
      destruct (IH _ _ _ eq_refl) as (Hlen & Hno).
      split; [intros He; specialize (Hlen He); cbn; lia|].
      destruct line' as [|d line'].
      * cbn. destruct (Ascii.eqb_spec c "010"); [contradiction|].
        intros [E'|[]]. congruence.
      * change (TrimSuffixLF (c :: d :: line'))
          with (c :: TrimSuffixLF (d :: line')).
        intros [E'|Hin]; [congruence | now apply Hno].
Qed.

Lemma stdinLoop_arguments (fuel : nat) :
  forall input,
    (Datatypes.length input < fuel)%nat ->
    exists arguments,
      stdinLoop fuel input = Some arguments
      /\ Forall (fun a => a <> [] /\ noLF a) arguments.
Proof.
  induction fuel as [|fuel IH]; intros input Hfuel; [lia|].
  cbn [stdinLoop].
  destruct (ReadString input) as [[line rest] eof] eqn:E.
  destruct (ReadString_shorter input _ _ _ E) as (Hlen & Hno).
  assert (Forall (fun a => a <> [] /\ noLF a)
                 (if 0 <? len (TrimSuffixLF line)
                  then [TrimSuffixLF line] else [])) as HS.
  { destruct (Z.ltb_spec 0 (len (TrimSuffixLF line))); [|constructor].
    constructor; [|constructor]. split; [|exact Hno].
    intros E0. rewrite E0 in *. unfold len in *. cbn in *. lia. }
  destruct eof.
  - eexists. split; [reflexivity | exact HS].
  - destruct (IH rest ltac:(specialize (Hlen eq_refl); lia))
      as (arguments & -> & HA).
    eexists. split; [reflexivity|]. apply Forall_app. now split.
Qed.

(** X18. Whatever the standard input is, the loop of
    [startProcessesFromStdin] ends, and none of the arguments it takes
    from it is empty or holds a line feed. *)
Theorem stdin_arguments_are_non_empty_lines (input : bytes) :
  exists arguments,
    stdinLines input = Some arguments
    /\ Forall (fun a => a <> [] /\ noLF a) arguments.
Proof. apply stdinLoop_arguments. lia. Qed.

End StdinFacts.

(** ** The exit code without and with keep-going *)

Module ExitCodeFacts.
Import Scheduler.

Lemma promote_successes (keepGoingOnError : bool)
    (before : list waitOutcome) :
  forall codes rest,
    map toForeground before = map Ok codes ->
    Forall (fun c => c <= 0) codes ->
    promote keepGoingOnError (before ++ rest) 0
    = promote keepGoingOnError rest 0.
Proof.
  induction before as [|p before IH]; intros codes rest Hm HF;
    [reflexivity|].
  destruct codes as [|c codes]; [discriminate|].
  cbn [map] in Hm. injection Hm as Hp Hm.
  inversion HF as [|? ? Hc HF']; subst.
  cbn [app promote]. rewrite Hp. cbn [bind].
  rewrite Z.max_l by lia. cbn [Z.eqb negb]. rewrite andb_false_r.
  now apply (IH codes).
Qed.

(** X19. With keep-going off the exit code is the status of the first
    child whose status is positive, and what comes after that child in the
    queue has no part in it.  A status that is zero or negative, such as
    the -1 of a child that a signal has killed, does not stop the run and
    counts as a success: when no status is positive the exit code is 0. *)
Theorem first_positive_status_is_the_exit_code
    (before : list waitOutcome) (codes : list Z) :
  map toForeground before = map Ok codes ->
  Forall (fun c => c <= 0) codes ->
  start false before = Ok 0
  /\ forall p c after,
       toForeground p = Ok c ->
       0 < c ->
       start false (before ++ p :: after) = Ok c.
Proof.
  intros Hm HF. unfold start. split.
  - rewrite <- (app_nil_r before).
    now rewrite (promote_successes false before codes [] Hm HF).
  - intros p c after Hp Hc.
    rewrite (promote_successes false before codes _ Hm HF).
    cbn [promote]. rewrite Hp. cbn [bind]. rewrite Z.max_r by lia.
    destruct (Z.eqb_spec c 0); [lia | reflexivity].
Qed.

Lemma first_positive_status_is_the_exit_code_witness :
  start false [WaitNil; WaitExitError (-1)] = Ok 0
  /\ start false ([WaitNil; WaitExitError (-1)]
                  ++ WaitExitError 2 :: [WaitExitError 7; WaitOtherError])
     = Ok 2.
Proof.
  destruct (first_positive_status_is_the_exit_code
              [WaitNil; WaitExitError (-1)] [0; -1] eq_refl
              ltac:(repeat constructor; lia)) as (H0 & H).
  split; [exact H0|].
  apply (H (WaitExitError 2) 2 [WaitExitError 7; WaitOtherError] eq_refl).
  lia.
Defined.

Lemma promote_keep_going_permutation (l l' : list waitOutcome) :
  Permutation l l' ->
  forall e, promote true l e = promote true l' e.
Proof.
  induction 1 as [|x l l' _ IH|x y l|l l' l'' _ IH1 _ IH2]; intros e.
  - reflexivity.
  - cbn [promote]. destruct (toForeground x) as [c|]; [|reflexivity].
    cbn [bind negb andb]. apply IH.
  - cbn [promote].
    destruct x as [|c|], y as [|d|];
      cbn [toForeground bind negb andb]; try reflexivity.
    + now replace (Z.max (Z.max e d) 0) with (Z.max (Z.max e 0) d) by lia.
    + now replace (Z.max (Z.max e 0) c) with (Z.max (Z.max e c) 0) by lia.
    + now replace (Z.max (Z.max e d) c) with (Z.max (Z.max e c) d) by lia.
  - now rewrite IH1.
Qed.

(** X20. With keep-going on every child is promoted and the exit code does
    not depend on the order of the queue: two queues with the same
    children give the same exit code, or both end in the same fatal
    error. *)
Theorem keep_going_exit_code_ignores_the_order
    (processes processes' : list waitOutcome) :
  Permutation processes processes' ->
  start true processes = start true processes'.
Proof.
  intros H. unfold start. now apply promote_keep_going_permutation.
Qed.

Lemma keep_going_exit_code_ignores_the_order_witness :
  start true [WaitExitError 3; WaitNil; WaitExitError 5]
  = start true [WaitNil; WaitExitError 5; WaitExitError 3].
Proof.
  apply keep_going_exit_code_ignores_the_order.
  apply Permutation_cons_append with (l := [WaitNil; WaitExitError 5]).
Defined.

End ExitCodeFacts.

(** ** The arguments of the command line *)

Module CliFacts.
Import Command.

Lemma cliLoop_prefix (stop : nat -> bool) (flTemplate : bytes)
    (command : list bytes) (data : list bytes) :
  forall i k,
    (forall j, (j < k)%nat -> stop (i + j)%nat = false) ->
    (stop (i + k)%nat = true \/ (Datatypes.length data <= k)%nat) ->
    cliLoop stop flTemplate command i data
    = map (instantiateCommandString flTemplate command) (firstn k data).
Proof.
  induction data as [|a data IH]; intros i k Hbefore Hat.
  - now rewrite firstn_nil.
  - cbn [cliLoop]. destruct k as [|k].
    + destruct Hat as [Hat|Hat]; [|cbn in Hat; lia].
      rewrite Nat.add_0_r in Hat. now rewrite Hat.
    + rewrite <- (Nat.add_0_r i) at 1. rewrite (Hbefore 0%nat) by lia.
      cbn [firstn map]. f_equal. apply IH.
      * intros j Hj. replace (S i + j)%nat with (i + S j)%nat by lia.
        apply Hbefore. lia.
      * replace (S i + k)%nat with (i + S k)%nat by lia.
        destruct Hat as [Hat|Hat]; [now left | right; cbn in Hat; lia].
Qed.

(** X21. [startProcessesFromCliArguments] hands the command lines to [run]
    in the order of the arguments and skips none: when the flag
    [noLongerSpawnChildren] is first seen set at the turn of index [k], the
    command lines are those of the first [k] arguments, and when it is
    never seen set they are those of all the arguments. *)
Theorem cli_arguments_are_started_in_order
    (stop : nat -> bool) (flTemplate : bytes) (command : list bytes)
    (data : list bytes) (k : nat) :
  (forall j, (j < k)%nat -> stop j = false) ->
  stop k = true \/ (Datatypes.length data <= k)%nat ->
  startProcessesFromCliArguments stop flTemplate command data
  = map (instantiateCommandString flTemplate command) (firstn k data).
Proof.
  intros Hbefore Hat. unfold startProcessesFromCliArguments.
  apply cliLoop_prefix; [exact Hbefore | exact Hat].
Qed.

Lemma cli_arguments_are_started_in_order_witness :
  startProcessesFromCliArguments (fun i => Nat.leb 2 i) (str "{}")
    [str "echo"] [str "a"; str "b"; str "c"]
  = map (instantiateCommandString (str "{}") [str "echo"])
        (firstn 2 [str "a"; str "b"; str "c"]).
Proof.
  apply (cli_arguments_are_started_in_order (fun i => Nat.leb 2 i) (str "{}")
           [str "echo"] [str "a"; str "b"; str "c"] 2).
  - intros j Hj. apply Nat.leb_gt. exact Hj.
  - left. reflexivity.
Defined.

End CliFacts.
